(** * The microphone-noise generator of [diyrng_generator.py]

    A shallow embedding of [DIYRNGGenerator]: the entropy pool, the
    von Neumann debiaser, the feature extraction of one audio block, the
    three-stage conditioner behind [next()], the quality metrics and the
    teardown.  Python's [hashlib], [struct], [collections.deque], the
    operating-system calls and the audio device are modelled next to the
    methods that use them. *)

From Stdlib Require Import ZArith List Lia QArith Qabs String.
From stdpp Require Import base tactics list gmap strings.
Import ListNotations.

Local Open Scope Z_scope.

(** A byte string ([bytes], [bytearray]) is a list of integers, each
    meant to lie in [0, 256); every constructor below reduces modulo 256. *)
Abbreviation bytes := (list Z) (only parsing).

(* ================================================================== *)
(** ** [hashlib]: SHA-256 and SHA-512 (FIPS 180-4) *)
(* ================================================================== *)

Module SHA2.

(** Big-endian serialisation of a word on [n] bytes, and its inverse. *)
Fixpoint be_encode (n : nat) (x : Z) : bytes :=
match n with
| O => []
| S n' => be_encode n' (x / 256) ++ [x mod 256]
end.

Definition be_decode (bs : bytes) : Z :=
fold_left (fun acc b => acc * 256 + b mod 256) bs 0.

(** The eight working registers. *)
Definition regs : Type := (Z * Z * Z * Z * Z * Z * Z * Z)%type.

(** What distinguishes the two members of the family that the generator
  uses: the word width, the round constants, the initial hash value and
  the rotation amounts. *)
Record variant := {
wbits : Z;
K : list Z;
IV : regs;
Sig0 : Z * Z * Z;
Sig1 : Z * Z * Z;
sig0 : Z * Z * Z;
sig1 : Z * Z * Z
}.

Section Family.
Variable v : variant.

Definition wbytes : nat := Z.to_nat (wbits v / 8).
Definition block_len : nat := (16 * wbytes)%nat.
Definition rounds : nat := length (K v).

Definition wrap (x : Z) : Z := x mod 2 ^ wbits v.

Definition rotr (n x : Z) : Z :=
  wrap (Z.lor (Z.shiftr x n) (Z.shiftl x (wbits v - n))).

Definition big_sigma (r : Z * Z * Z) (x : Z) : Z :=
  let '(a, b, c) := r in
  Z.lxor (Z.lxor (rotr a x) (rotr b x)) (rotr c x).

Definition small_sigma (r : Z * Z * Z) (x : Z) : Z :=
  let '(a, b, c) := r in
  Z.lxor (Z.lxor (rotr a x) (rotr b x)) (Z.shiftr x c).

Definition Ch (x y z : Z) : Z :=
  Z.lxor (Z.land x y) (Z.land (Z.lxor x (2 ^ wbits v - 1)) z).

Definition Maj (x y z : Z) : Z :=
  Z.lxor (Z.lxor (Z.land x y) (Z.land x z)) (Z.land y z).

(** Padding: a single 1 bit, zeros, and the bit length of the message on
    [2 * wbytes] bytes, up to a whole number of blocks. *)
Definition pad (msg : bytes) : bytes :=
  let n := length msg in
  let used := ((n + 1 + 2 * wbytes) mod block_len)%nat in
  let zeros := ((block_len - used) mod block_len)%nat in
  msg ++ [128] ++ repeat 0 zeros ++ be_encode (2 * wbytes) (8 * Z.of_nat n).

Fixpoint pieces (size count : nat) (l : bytes) : list bytes :=
  match count with
  | O => []
  | S c => take size l :: pieces size c (drop size l)
  end.

Definition words_of (block : bytes) : list Z :=
  map be_decode (pieces wbytes 16 block).

(** Message schedule; the accumulator holds the words computed so far,
    newest first. *)
Fixpoint expand (n : nat) (acc : list Z) : list Z :=
  match n with
  | O => acc
  | S n' =>
      let wt := wrap (small_sigma (sig1 v) (nth 1 acc 0) + nth 6 acc 0
                      + small_sigma (sig0 v) (nth 14 acc 0) + nth 15 acc 0) in
      expand n' (wt :: acc)
  end.

Definition schedule (block : bytes) : list Z :=
  rev (expand (rounds - 16) (rev (words_of block))).

Definition round (s : regs) (kw : Z * Z) : regs :=
  let '(a, b, c, d, e, f, g, h) := s in
  let t1 := wrap (h + big_sigma (Sig1 v) e + Ch e f g + fst kw + snd kw) in
  let t2 := wrap (big_sigma (Sig0 v) a + Maj a b c) in
  (wrap (t1 + t2), a, b, c, wrap (d + t1), e, f, g).

Definition compress (H : regs) (block : bytes) : regs :=
  let '(a, b, c, d, e, f, g, h) :=
    fold_left round (combine (K v) (schedule block)) H in
  let '(a0, b0, c0, d0, e0, f0, g0, h0) := H in
  (wrap (a0 + a), wrap (b0 + b), wrap (c0 + c), wrap (d0 + d),
   wrap (e0 + e), wrap (f0 + f), wrap (g0 + g), wrap (h0 + h)).

Definition serialise (H : regs) : bytes :=
  let '(a, b, c, d, e, f, g, h) := H in
  be_encode wbytes a ++ be_encode wbytes b ++ be_encode wbytes c
    ++ be_encode wbytes d ++ be_encode wbytes e ++ be_encode wbytes f
    ++ be_encode wbytes g ++ be_encode wbytes h.

Definition hash (msg : bytes) : bytes :=
  let padded := pad msg in
  let blocks := pieces block_len (length padded / block_len) padded in
  serialise (fold_left compress blocks (IV v)).
End Family.

(** The constants of FIPS 180-4 are the leading bits of the fractional
    parts of roots of the first primes: cube roots for the round
    constants, square roots for the initial hash value. *)
Definition is_prime (n : Z) : bool :=
  (1 <? n)
  && forallb (fun d => negb (n mod d =? 0))
             (map Z.of_nat (seq 2 (Z.to_nat n - 2))).

Definition primes : list Z := filter is_prime (map Z.of_nat (seq 2 408)).

(** The largest [r] in [lo, hi) with [r ^ k <= n], by bisection. *)
Fixpoint root_search (k n : Z) (fuel : nat) (lo hi : Z) : Z :=
  match fuel with
  | O => lo
  | S fuel' =>
      if hi - lo <=? 1 then lo
      else
        let mid := (lo + hi) / 2 in
        if mid ^ k <=? n then root_search k n fuel' mid hi
        else root_search k n fuel' lo mid
  end.

(** The first [w] bits of the fractional part of the [k]-th root of [p]. *)
Definition root_fraction (k w p : Z) : Z :=
  root_search k (p * 2 ^ (k * w)) (Z.to_nat (w + 8)) 0 (2 ^ (w + 8))
  mod 2 ^ w.

Definition regs_of (l : list Z) : regs :=
  match l with
  | [a; b; c; d; e; f; g; h] => (a, b, c, d, e, f, g, h)
  | _ => (0, 0, 0, 0, 0, 0, 0, 0)
  end.

Definition K256 : list Z :=
  Eval vm_compute in map (root_fraction 3 32) (take 64 primes).
Definition IV256 : regs :=
  Eval vm_compute in regs_of (map (root_fraction 2 32) (take 8 primes)).
Definition K512 : list Z :=
  Eval vm_compute in map (root_fraction 3 64) (take 80 primes).
Definition IV512 : regs :=
  Eval vm_compute in regs_of (map (root_fraction 2 64) (take 8 primes)).

Definition sha256_variant : variant := {|
  wbits := 32;
  K := K256;
  IV := IV256;
  Sig0 := (2, 13, 22);
  Sig1 := (6, 11, 25);
  sig0 := (7, 18, 3);
  sig1 := (17, 19, 10)
|}.

Definition sha512_variant : variant := {|
  wbits := 64;
  K := K512;
  IV := IV512;
  Sig0 := (28, 34, 39);
  Sig1 := (14, 18, 41);
  sig0 := (1, 8, 7);
  sig1 := (19, 61, 6)
|}.

Definition sha256 : bytes -> bytes := hash sha256_variant.
Definition sha512 : bytes -> bytes := hash sha512_variant.

End SHA2.

(* ================================================================== *)
(** ** Exceptions and the state monad of the methods *)
(* ================================================================== *)

(** The exceptions that the calls below can raise. *)
Inductive exn : Type :=
  | OSError        (* device library: stream closed, read failure *)
  | ValueError     (* bytes() of a value outside range(256); bad frame count *)
  | OverflowError  (* numpy: Python int does not fit uint64 *)
  | StructError.   (* struct.pack / struct.unpack *)

Inductive result (A : Type) : Type :=
  | Ok (a : A)
  | Raise (e : exn).
Arguments Ok {A} a.
Arguments Raise {A} e.

(** A computation over a mutable state [S] that returns or raises; the
    state reached when an exception is raised is kept, as in Python. *)
Definition M (S A : Type) : Type := S -> result A * S.

Definition ret {S A} (a : A) : M S A := fun s => (Ok a, s).
Definition raise {S A} (e : exn) : M S A := fun s => (Raise e, s).
Definition bind {S A B} (c : M S A) (k : A -> M S B) : M S B :=
  fun s => match c s with
           | (Ok a, s') => k a s'
           | (Raise e, s') => (Raise e, s')
           end.
(** [try: c except Exception: h] *)
Definition try_except {S A} (c : M S A) (h : exn -> M S A) : M S A :=
  fun s => match c s with
           | (Ok a, s') => (Ok a, s')
           | (Raise e, s') => h e s'
           end.
Definition get {S} : M S S := fun s => (Ok s, s).
Definition gets {S A} (f : S -> A) : M S A := fun s => (Ok (f s), s).
Definition modify {S} (f : S -> S) : M S unit := fun s => (Ok tt, f s).
Definition lift {S A} (r : result A) : M S A := fun s => (r, s).

Declare Scope py_scope.
Delimit Scope py_scope with py.
Notation "x <- c ;; k" := (bind c (fun x => k))
  (at level 100, c at next level, right associativity) : py_scope.
Notation "c ;;; k" := (bind c (fun _ => k))
  (at level 100, right associativity) : py_scope.
Local Open Scope py_scope.

(** [for i in range(n): xs.append(body)] *)
Fixpoint collect_loop {S A} (n : nat) (body : M S A) : M S (list A) :=
  match n with
  | O => ret []
  | S n' => x <- body ;; xs <- collect_loop n' body ;; ret (x :: xs)
  end.

(* ================================================================== *)
(** ** [struct], [bytes], [numpy] conversions and [collections.deque] *)
(* ================================================================== *)

(** [sys.byteorder]: the formats ['Q'] and ['I'] carry no prefix and so
    use the byte order of the host. *)
Inductive endian : Type := little | big.

Definition encode (bo : endian) (n : nat) (x : Z) : bytes :=
  match bo with
  | big => SHA2.be_encode n x
  | little => rev (SHA2.be_encode n x)
  end.

Definition decode (bo : endian) (bs : bytes) : Z :=
  match bo with
  | big => SHA2.be_decode bs
  | little => SHA2.be_decode (rev bs)
  end.

(** [struct.pack('Q', x)] and [struct.pack('I', x)]: [struct.error] when
    [x] does not fit the unsigned format. *)
Definition struct_pack (bo : endian) (n : nat) (x : Z) : result bytes :=
  if (0 <=? x) && (x <? 256 ^ Z.of_nat n) then Ok (encode bo n x)
  else Raise StructError.

(** [struct.unpack('I', b)[0]]: [struct.error] unless [b] has 4 bytes. *)
Definition struct_unpack_I (bo : endian) (b : bytes) : result Z :=
  if (length b =? 4)%nat then Ok (decode bo b) else Raise StructError.

(** [bytes(xs)] of a list of integers. *)
Definition bytes_of_ints (xs : list Z) : result bytes :=
  if forallb (fun x => (0 <=? x) && (x <? 256)) xs then Ok xs
  else Raise ValueError.

(** [np.array(xs, dtype=np.uint64)] of a list of Python integers. *)
Definition np_array_uint64 (xs : list Z) : result (list Z) :=
  if forallb (fun x => (0 <=? x) && (x <? 2 ^ 64)) xs then Ok xs
  else Raise OverflowError.

(** Wrap-around of [np.int16] arithmetic. *)
Definition int16 (x : Z) : Z := (x + 32768) mod 65536 - 32768.

(** [np.diff] on an [int16] array. *)
Definition np_diff (a : list Z) : list Z :=
  zip_with (fun x y => int16 (y - x)) a (tail a).

(** [a.astype(np.uint8)] on an integer array. *)
Definition astype_uint8 (a : list Z) : list Z := map (fun x => x mod 256) a.

Module Deque.
(** [collections.deque(maxlen=n)]: appending to a full deque discards
    the element at the other end. *)
Definition append (maxlen : Z) (d : list Z) (x : Z) : list Z :=
  if maxlen <=? 0 then d
  else if maxlen <=? Z.of_nat (length d) then tail d ++ [x]
  else d ++ [x].

Definition extend (maxlen : Z) (d : list Z) (xs : list Z) : list Z :=
  fold_left (append maxlen) xs d.
End Deque.

(* ================================================================== *)
(** ** The environment of a generator *)
(* ================================================================== *)

(** A Python [float], by the value of the double; [numpy] estimators can
    also return [nan]. *)
Inductive pyfloat : Type :=
  | Finite (q : Q)
  | NaN.

Module Float.
(** True division of Python integers, [a / b]: the quotient correctly
    rounded to a double, that is to 53 significant bits with ties going
    to the even significand; below [2 ^ -1022] the last place stays at
    [2 ^ -1074]; [OverflowError] when the rounded quotient reaches
    [2 ^ 1024]. *)

(** The integer nearest to [a / b], for [b > 0]. *)
Definition round_half_even (a b : Z) : Z :=
  let q := a / b in
  let r := a mod b in
  if 2 * r <? b then q
  else if b <? 2 * r then q + 1
  else if Z.even q then q else q + 1.

(** The exponent [e] of the last place of the significand: the one with
    [2 ^ 52 <= a / (b * 2 ^ e) < 2 ^ 53], but not below [-1074]. *)
Definition last_place (a b : Z) : Z :=
  let la := Z.log2 a in
  let lb := Z.log2 b in
  Z.max (-1074)
    (if b * 2 ^ la <=? a * 2 ^ lb then la - lb - 52 else la - lb - 53).

(** The double nearest to [a / b], for [a > 0] and [b > 0]. *)
Definition nearest (a b : Z) : result Q :=
  let e := last_place a b in
  if 0 <=? e then
    let m := round_half_even a (b * 2 ^ e) in
    if 2 ^ 1024 <=? m * 2 ^ e then Raise OverflowError
    else Ok (m * 2 ^ e # 1)
  else Ok (round_half_even (a * 2 ^ (- e)) b # Z.to_pos (2 ^ (- e))).

(** [a / b] for a positive divisor; the sign of a zero is not kept. *)
Definition true_divide (a : Z) (b : positive) : result pyfloat :=
  match a with
  | Z0 => Ok (Finite 0)
  | Zpos _ =>
      match nearest a (Zpos b) with
      | Ok q => Ok (Finite q)
      | Raise e => Raise e
      end
  | Zneg _ =>
      match nearest (- a) (Zpos b) with
      | Ok q => Ok (Finite (- q))
      | Raise e => Raise e
      end
  end.
End Float.

(** What the program reads from outside and cannot control: the host, the
    operating system, the audio device, and numpy's floating-point
    routines.  Readings that change from call to call are indexed by the
    number of readings made so far. *)
Record Environment := {
  byteorder : endian;              (* sys.byteorder *)
  AUDIO_AVAILABLE : bool;          (* whether [import pyaudio] succeeded *)
  pid : Z;                         (* os.getpid() *)
  clock : nat -> Z;                (* successive values of time.time_ns() *)
  urandom_src : nat -> Z;          (* successive bytes of os.urandom *)
  pa_init_fails : bool;            (* pyaudio.PyAudio() raises *)
  pa_open_fails : bool;            (* audio.open(...) raises *)
  mic_signal : nat -> Z;           (* successive frames of the input line *)
  mic_fault : nat -> bool;         (* whether the k-th stream.read raises *)
  spectrum : list Z -> nat -> Z;   (* np.abs(np.fft.fft(a))[k].astype(np.uint8) *)
  np_mean : list Z -> pyfloat;
  np_std : list Z -> pyfloat;
  np_corrcoef : list Z -> list Z -> pyfloat   (* np.corrcoef(x, y)[0, 1] *)
}.

(** The state of the device library ([pyaudio]) and the positions reached
    in the streams of readings. *)
Inductive pa_status : Type := PaAbsent | PaInitialised | PaTerminated.
Inductive line_status : Type := Unopened | Active | Stopped | Closed.

Record World := {
  ticks : nat;     (* readings of the clock so far *)
  drawn : nat;     (* bytes of os.urandom handed out so far *)
  frames : nat;    (* frames read from the input line so far *)
  reads : nat;     (* calls of stream.read so far *)
  pa : pa_status;
  line : line_status
}.

Definition boot : World :=
  {| ticks := 0; drawn := 0; frames := 0; reads := 0;
     pa := PaAbsent; line := Unopened |}.

(** References to the objects of the device library and to the thread. *)
Inductive PyAudioRef : Type := the_audio.
Inductive StreamRef : Type := the_stream.
Inductive ThreadRef : Type := the_thread.

(** The attributes of a [DIYRNGGenerator]. *)
Record Generator := {
  sample_rate : Z;
  chunk_size : Z;
  entropy_pool : bytes;
  entropy_queue : list bytes;      (* queue.Queue(maxsize=1000) *)
  entropy_history : list Z;        (* deque(maxlen=10000) *)
  audio : option PyAudioRef;
  stream : option StreamRef;
  collecting : bool;
  collection_thread : option ThreadRef
}.

Record Machine := { self : Generator; world : World }.

Definition set_entropy_pool (p : bytes) (g : Generator) : Generator :=
  {| sample_rate := sample_rate g; chunk_size := chunk_size g;
     entropy_pool := p; entropy_queue := entropy_queue g;
     entropy_history := entropy_history g; audio := audio g;
     stream := stream g; collecting := collecting g;
     collection_thread := collection_thread g |}.

Definition set_entropy_queue (q : list bytes) (g : Generator) : Generator :=
  {| sample_rate := sample_rate g; chunk_size := chunk_size g;
     entropy_pool := entropy_pool g; entropy_queue := q;
     entropy_history := entropy_history g; audio := audio g;
     stream := stream g; collecting := collecting g;
     collection_thread := collection_thread g |}.

Definition set_entropy_history (h : list Z) (g : Generator) : Generator :=
  {| sample_rate := sample_rate g; chunk_size := chunk_size g;
     entropy_pool := entropy_pool g; entropy_queue := entropy_queue g;
     entropy_history := h; audio := audio g;
     stream := stream g; collecting := collecting g;
     collection_thread := collection_thread g |}.

Definition set_audio (a : option PyAudioRef) (g : Generator) : Generator :=
  {| sample_rate := sample_rate g; chunk_size := chunk_size g;
     entropy_pool := entropy_pool g; entropy_queue := entropy_queue g;
     entropy_history := entropy_history g; audio := a;
     stream := stream g; collecting := collecting g;
     collection_thread := collection_thread g |}.

Definition set_stream (s : option StreamRef) (g : Generator) : Generator :=
  {| sample_rate := sample_rate g; chunk_size := chunk_size g;
     entropy_pool := entropy_pool g; entropy_queue := entropy_queue g;
     entropy_history := entropy_history g; audio := audio g;
     stream := s; collecting := collecting g;
     collection_thread := collection_thread g |}.

Definition set_collecting (c : bool) (g : Generator) : Generator :=
  {| sample_rate := sample_rate g; chunk_size := chunk_size g;
     entropy_pool := entropy_pool g; entropy_queue := entropy_queue g;
     entropy_history := entropy_history g; audio := audio g;
     stream := stream g; collecting := c;
     collection_thread := collection_thread g |}.

Definition set_collection_thread (t : option ThreadRef) (g : Generator) : Generator :=
  {| sample_rate := sample_rate g; chunk_size := chunk_size g;
     entropy_pool := entropy_pool g; entropy_queue := entropy_queue g;
     entropy_history := entropy_history g; audio := audio g;
     stream := stream g; collecting := collecting g;
     collection_thread := t |}.

Definition on_self (f : Generator -> Generator) : M Machine unit :=
  modify (fun m => {| self := f (self m); world := world m |}).

Definition on_world (f : World -> World) : M Machine unit :=
  modify (fun m => {| self := self m; world := f (world m) |}).

Definition set_line (l : line_status) (w : World) : World :=
  {| ticks := ticks w; drawn := drawn w; frames := frames w; reads := reads w;
     pa := pa w; line := l |}.

Definition set_pa (p : pa_status) (w : World) : World :=
  {| ticks := ticks w; drawn := drawn w; frames := frames w; reads := reads w;
     pa := p; line := line w |}.

(* ================================================================== *)
(** ** The methods of [DIYRNGGenerator] *)
(* ================================================================== *)

(** Console output ([print]) is not modelled. *)

(** [_von_neumann_debias]: the [while] loop over the index [i], then
    [bytes(debiased)].  [fuel] bounds the number of iterations. *)
Fixpoint debias_loop (fuel : nat) (bits : list Z) (i : nat) (debiased : list Z)
  : list Z :=
  match fuel with
  | O => debiased
  | S fuel' =>
      if Z.of_nat i <? Z.of_nat (length bits) - 1 then
        let debiased' :=
          if negb (nth i bits 0 =? nth (i + 1) bits 0)
          then debiased ++ [nth i bits 0]
          else debiased in
        debias_loop fuel' bits (i + 2) debiased'
      else debiased
  end.

Definition _von_neumann_debias (bits : list Z) : result bytes :=
  bytes_of_ints (debias_loop (length bits) bits 0 []).

(** [hashlib] objects: [update] accumulates, [digest] hashes what was fed. *)
Definition hasher : Type := bytes.
Definition hashlib_new : hasher := [].
Definition update (h : hasher) (data : bytes) : hasher := h ++ data.

(** The three stages of conditioning in [next], as functions of the pool
    and of the collected entropy. *)
Definition stage1_hash (pool entropy : bytes) : bytes :=
  SHA2.sha256 (update (update hashlib_new pool) entropy).

Definition stage2_hash (pool entropy : bytes) : bytes :=
  SHA2.sha512 (update (update hashlib_new (stage1_hash pool entropy))
                      (drop (length entropy - 32) entropy)).

Definition xor_result (pool entropy : bytes) : bytes :=
  let stage2 := stage2_hash pool entropy in
  let hash_part1 := take 32 stage2 in
  let hash_part2 := drop 32 stage2 in
  zip_with Z.lxor hash_part1 hash_part2.

Arguments xor_result : simpl never.
Arguments stage1_hash : simpl never.
Arguments stage2_hash : simpl never.
Arguments SHA2.sha256 : simpl never.
Arguments SHA2.sha512 : simpl never.
Arguments Deque.extend : simpl never.

Section Methods.
Variable env : Environment.

(** *** Operating system *)

Definition time_ns : M Machine Z := fun m =>
  let w := world m in
  (Ok (clock env (ticks w)),
   {| self := self m;
      world := {| ticks := S (ticks w); drawn := drawn w; frames := frames w;
                  reads := reads w; pa := pa w; line := line w |} |}).

Definition os_urandom (n : nat) : M Machine bytes := fun m =>
  let w := world m in
  (Ok (map (fun i => urandom_src env i mod 256) (seq (drawn w) n)),
   {| self := self m;
      world := {| ticks := ticks w; drawn := (drawn w + n)%nat;
                  frames := frames w; reads := reads w;
                  pa := pa w; line := line w |} |}).

Definition os_getpid : M Machine Z := ret (pid env).

(** *** Device library

    [pyaudio] is not part of the repository.  Its handles follow the
    protocol that the specification gives for the noise source: opening
    can fail; a read can fail, and fails on a stream that is not active;
    the status of a closed stream cannot be asked; stopping a stream that
    does not run does nothing; closing and terminating can be repeated. *)

Definition pyaudio_PyAudio : M Machine PyAudioRef :=
  if pa_init_fails env then raise OSError
  else on_world (set_pa PaInitialised) ;;; ret the_audio.

Definition audio_open (a : PyAudioRef) : M Machine StreamRef :=
  if pa_open_fails env then raise OSError
  else on_world (set_line Active) ;;; ret the_stream.

Definition stream_is_stopped (s : StreamRef) : M Machine bool :=
  w <- gets world ;;
  match line w with
  | Active => ret false
  | Stopped => ret true
  | Unopened | Closed => raise OSError
  end.

(** [stream.read(n, exception_on_overflow=False)] followed by
    [np.frombuffer(..., dtype=np.int16)]: [n] frames of 16 bits. *)
Definition stream_read (s : StreamRef) (n : Z) : M Machine (list Z) := fun m =>
  let w := world m in
  if n <? 0 then (Raise ValueError, m)
  else match line w with
       | Active =>
           if mic_fault env (reads w) then
             (Raise OSError,
              {| self := self m;
                 world := {| ticks := ticks w; drawn := drawn w;
                             frames := frames w; reads := S (reads w);
                             pa := pa w; line := line w |} |})
           else
             (Ok (map (fun i => int16 (mic_signal env i))
                      (seq (frames w) (Z.to_nat n))),
              {| self := self m;
                 world := {| ticks := ticks w; drawn := drawn w;
                             frames := (frames w + Z.to_nat n)%nat;
                             reads := S (reads w);
                             pa := pa w; line := line w |} |})
       | _ => (Raise OSError, m)
       end.

Definition stream_stop_stream (s : StreamRef) : M Machine unit :=
  w <- gets world ;;
  match line w with
  | Active => on_world (set_line Stopped)
  | _ => ret tt
  end.

Definition stream_close (s : StreamRef) : M Machine unit :=
  on_world (set_line Closed).

(** [terminate] also closes the streams that the instance opened. *)
Definition audio_terminate (a : PyAudioRef) : M Machine unit :=
  w <- gets world ;;
  match line w with
  | Unopened => ret tt
  | _ => on_world (set_line Closed)
  end ;;;
  on_world (set_pa PaTerminated).

(** [thread.join(timeout=1.0)]: a bounded wait. *)
Definition thread_join (t : ThreadRef) : M Machine unit := ret tt.

(** *** [_setup_audio] *)
Definition _setup_audio : M Machine unit :=
  try_except
    (a <- pyaudio_PyAudio ;;
     on_self (set_audio (Some a)) ;;;
     s <- audio_open a ;;
     on_self (set_stream (Some s)))
    (fun _ =>
       on_self (set_audio None) ;;;
       on_self (set_stream None)).

(** [not self.stream or self.stream.is_stopped()] *)
Definition stream_unusable : M Machine bool :=
  g <- gets self ;;
  match stream g with
  | None => ret true
  | Some s => stream_is_stopped s
  end.

(** The high half of the magnitude spectrum, low nibble of each bin. *)
Definition spectral_feature (audio_array : list Z) : bytes :=
  let n := length audio_array in
  map (fun k => Z.land (spectrum env audio_array k mod 256) 0x0F)
      (seq (Nat.div n 2) (n - Nat.div n 2)).

(** Second-order differences, low three bits of each. *)
Definition diff2_feature (audio_array : list Z) : bytes :=
  map (fun x => Z.land x 0x07) (astype_uint8 (np_diff (np_diff audio_array))).

(** [(a & 0xFF).astype(np.uint8).tobytes()] *)
Definition low_bytes (a : list Z) : bytes :=
  astype_uint8 (map (fun x => Z.land x 0xFF) a).

(** *** [_collect_microphone_entropy] *)
Definition _collect_microphone_entropy : M Machine bytes :=
  unusable <- stream_unusable ;;
  if unusable : bool then os_urandom 32
  else
    try_except
      (g <- gets self ;;
       audio_array <- stream_read the_stream (chunk_size g / 2) ;;
       let entropy_bytes : bytes := [] in
       (* 1. least significant bits, debiased *)
       let lsb_bits := map (fun x => Z.land x 0x01) audio_array in
       debiased_bits <- lift (_von_neumann_debias lsb_bits) ;;
       let entropy_bytes := entropy_bytes ++ debiased_bits in
       (* 2. spectral analysis *)
       let entropy_bytes :=
         if (64 <=? length audio_array)%nat
         then entropy_bytes ++ spectral_feature audio_array
         else entropy_bytes in
       (* 3. second-order differences *)
       let entropy_bytes :=
         if (2 <? length audio_array)%nat
         then entropy_bytes ++ diff2_feature audio_array
         else entropy_bytes in
       (* 4. jitter measurements *)
       sample_times <-
         collect_loop (Nat.min 10 (length audio_array))
           (start <- time_ns ;; end_ <- time_ns ;; ret (end_ - start)) ;;
       entropy_bytes <-
         match sample_times with
         | [] => ret entropy_bytes
         | _ =>
             jitter_entropy <- lift (np_array_uint64 sample_times) ;;
             ret (entropy_bytes ++ low_bytes jitter_entropy)
         end ;;
       (* 5. timestamp *)
       timestamp <- time_ns ;;
       packed <- lift (struct_pack (byteorder env) 8 timestamp) ;;
       ret (entropy_bytes ++ packed))
      (fun _ => os_urandom 32).

(** *** [_collect_initial_entropy] *)
Definition _collect_initial_entropy : M Machine unit :=
  unusable <- stream_unusable ;;
  (if unusable : bool then ret tt
   else
     mic_entropy <- _collect_microphone_entropy ;;
     on_self (fun g => set_entropy_pool (entropy_pool g ++ mic_entropy) g)) ;;;
  sys <- os_urandom 32 ;;
  on_self (fun g => set_entropy_pool (entropy_pool g ++ sys) g) ;;;
  timestamp <- time_ns ;;
  packed <- lift (struct_pack (byteorder env) 8 timestamp) ;;
  on_self (fun g => set_entropy_pool (entropy_pool g ++ packed) g) ;;;
  p <- os_getpid ;;
  packed_pid <- lift (struct_pack (byteorder env) 4 p) ;;
  on_self (fun g => set_entropy_pool (entropy_pool g ++ packed_pid) g).

(** The first step of [_collect_initial_entropy]: the microphone sample,
    when the stream is usable. *)
Definition seed_from_microphone (unusable : bool) : M Machine unit :=
  if unusable then ret tt
  else
    mic_entropy <- _collect_microphone_entropy ;;
    on_self (fun g => set_entropy_pool (entropy_pool g ++ mic_entropy) g).

(** *** [_start_continuous_collection] *)
Definition _start_continuous_collection : M Machine unit :=
  g <- gets self ;;
  match stream g with
  | None => ret tt
  | Some _ =>
      on_self (set_collecting true) ;;;
      on_self (set_collection_thread (Some the_thread))
  end.

(** One iteration of the loop of [_continuous_entropy_collection], the
    body of the background thread, taken as one atomic step. *)
Definition collector_iteration : M Machine unit :=
  g <- gets self ;;
  if collecting g then
    unusable <- stream_unusable ;;
    if unusable : bool then ret tt
    else
      try_except
        (entropy <- _collect_microphone_entropy ;;
         g' <- gets self ;;
         if 1000 <=? Z.of_nat (length (entropy_queue g')) then ret tt
         else on_self (set_entropy_queue (entropy_queue g' ++ [entropy])))
        (fun _ => ret tt)
  else ret tt.

(** *** [__init__] *)
Definition blank (sample_rate chunk_size : Z) : Generator :=
  {| sample_rate := sample_rate; chunk_size := chunk_size;
     entropy_pool := []; entropy_queue := []; entropy_history := [];
     audio := None; stream := None; collecting := false;
     collection_thread := None |}.

Definition __init__ (sample_rate chunk_size : Z) (w : World)
  : result unit * Machine :=
  ((if AUDIO_AVAILABLE env
    then _setup_audio ;;; _start_continuous_collection
    else ret tt) ;;;
   _collect_initial_entropy)
    {| self := blank sample_rate chunk_size; world := w |}.

(** The part of [__init__] before the seeding. *)
Definition acquire_device : M Machine unit :=
  if AUDIO_AVAILABLE env
  then _setup_audio ;;; _start_continuous_collection
  else ret tt.

(** *** [_collect_additional_entropy] *)
Definition _collect_additional_entropy : M Machine bytes :=
  (* 1. drain the queue *)
  g <- gets self ;;
  let entropy_sources : bytes := concat (entropy_queue g) in
  on_self (set_entropy_queue []) ;;;
  (* 2. fresh microphone entropy *)
  fresh_entropy <- _collect_microphone_entropy ;;
  let entropy_sources := entropy_sources ++ fresh_entropy in
  (* 3. system entropy *)
  sys <- os_urandom 16 ;;
  let entropy_sources := entropy_sources ++ sys in
  (* 4. CPU timing jitter *)
  jitter_samples <-
    collect_loop 20
      (start <- time_ns ;; _ <- os_getpid ;; end_ <- time_ns ;;
       ret (end_ - start)) ;;
  jitter_array <- lift (np_array_uint64 jitter_samples) ;;
  let entropy_sources := entropy_sources ++ low_bytes jitter_array in
  (* 5. memory allocation timing *)
  start <- time_ns ;;
  end_ <- time_ns ;;
  packed <- lift (struct_pack (byteorder env) 8 (end_ - start)) ;;
  ret (entropy_sources ++ packed).

(** *** [next] *)
Definition next : M Machine Z :=
  entropy <- _collect_additional_entropy ;;
  on_self (fun g =>
    set_entropy_history
      (Deque.extend 10000 (entropy_history g) (take 100 entropy)) g) ;;;
  g <- gets self ;;
  let xor_result := xor_result (entropy_pool g) entropy in
  random_int <- lift (struct_unpack_I (byteorder env) (take 4 xor_result)) ;;
  on_self (set_entropy_pool (take 24 (drop 4 xor_result))) ;;;
  ret random_int.

Definition generate_sequence (n : nat) : M Machine (list Z) :=
  collect_loop n next.

(** [x / 0xFFFFFFFF]: true division, which rounds to a double. *)
Definition normalize (x : Z) : result pyfloat :=
  Float.true_divide x 4294967295.

Definition normalized_next : M Machine pyfloat :=
  x <- next ;; lift (normalize x).

Definition normalized_sequence (n : nat) : M Machine (list pyfloat) :=
  collect_loop n normalized_next.

Definition get_entropy_estimate : M Machine nat :=
  g <- gets self ;; ret (length (entropy_pool g)).

Definition refresh_entropy : M Machine unit := _collect_initial_entropy.

Definition get_audio_status : M Machine string :=
  if negb (AUDIO_AVAILABLE env) then ret "PyAudio not available"%string
  else
    g <- gets self ;;
    match stream g with
    | None => ret "Microphone not initialized"%string
    | Some s =>
        stopped <- stream_is_stopped s ;;
        if stopped : bool then ret "Microphone stopped"%string
        else ret "Microphone active"%string
    end.
End Methods.

Section Diagnostics.
Variable env : Environment.

(** A value stored in the dictionary of metrics. *)
Inductive pyval : Type :=
  | PStr (s : string)
  | PInt (n : Z)
  | PFloat (x : pyfloat).

(** *** [get_entropy_quality_metrics] *)
Definition get_entropy_quality_metrics : M Machine (gmap string pyval) :=
  g <- gets self ;;
  if (length (entropy_history g) <? 100)%nat then
    ret {[ "status"%string := PStr "insufficient_data" ]}
  else
    let data := astype_uint8 (entropy_history g) in
    let mean := np_mean env data in
    let std := np_std env data in
    let unique_bytes := size (list_to_set data : gset Z) in
    let entropy_estimate := Finite (Z.of_nat unique_bytes # 256) in
    let correlation :=
      if (1 <? length data)%nat
      then PFloat (np_corrcoef env (removelast data) (tail data))
      else PInt 0 in
    ret (<[ "sample_size"%string := PInt (Z.of_nat (length data)) ]>
        (<[ "mean"%string := PFloat mean ]>
        (<[ "std"%string := PFloat std ]>
        (<[ "entropy_estimate"%string := PFloat entropy_estimate ]>
        (<[ "unique_bytes"%string := PInt (Z.of_nat unique_bytes) ]>
        (<[ "serial_correlation"%string := correlation ]>
        (<[ "queue_size"%string := PInt (Z.of_nat (length (entropy_queue g))) ]>
         ∅))))))).

(** *** [cleanup] *)
Definition cleanup : M Machine unit :=
  on_self (set_collecting false) ;;;
  g <- gets self ;;
  match collection_thread g with
  | Some t => thread_join t
  | None => ret tt
  end ;;;
  match stream g with
  | Some s => stream_stop_stream s ;;; stream_close s
  | None => ret tt
  end ;;;
  match audio g with
  | Some a => audio_terminate a
  | None => ret tt
  end.

(** What a caller, or the background thread, can do to a generator. *)
Inductive call : Type :=
  | call_next
  | call_generate_sequence (n : nat)
  | call_normalized_next
  | call_normalized_sequence (n : nat)
  | call_get_entropy_estimate
  | call_refresh_entropy
  | call_get_audio_status
  | call_get_entropy_quality_metrics
  | call_cleanup
  | thread_turn.

(** The state after a call, whether it returned or raised. *)
Definition after (c : call) (m : Machine) : Machine :=
  match c with
  | call_next => snd (next env m)
  | call_generate_sequence n => snd (generate_sequence env n m)
  | call_normalized_next => snd (normalized_next env m)
  | call_normalized_sequence n => snd (normalized_sequence env n m)
  | call_get_entropy_estimate => snd (get_entropy_estimate m)
  | call_refresh_entropy => snd (refresh_entropy env m)
  | call_get_audio_status => snd (get_audio_status env m)
  | call_get_entropy_quality_metrics => snd (get_entropy_quality_metrics m)
  | call_cleanup => snd (cleanup m)
  | thread_turn => snd (collector_iteration env m)
  end.

Definition after_all (cs : list call) (m : Machine) : Machine :=
  fold_left (fun m c => after c m) cs m.
End Diagnostics.

(* ================================================================== *)
(** ** Debiasing as the specification words it *)
(* ================================================================== *)

(** "Partition into disjoint adjacent pairs": a trailing unpaired bit
    belongs to no pair. *)
Fixpoint adjacent_pairs (bits : list Z) : list (Z * Z) :=
  match bits with
  | a :: b :: rest => (a, b) :: adjacent_pairs rest
  | _ => []
  end.

(** "For each pair, if the two bits differ, emit the first bit; if equal,
    discard the pair." *)
Definition emit_differing (pairs : list (Z * Z)) : list Z :=
  flat_map (fun p => if fst p =? snd p then [] else [fst p]) pairs.

Definition is_bit (b : Z) : Prop := b = 0 \/ b = 1.

(* ================================================================== *)
(** ** Conditions on the environment and on a generator *)
(* ================================================================== *)

(** The clock never steps backwards and its readings fit 64 bits; the
    process identifier fits 32 bits. *)
Definition steady_clock (env : Environment) : Prop :=
  forall i, 0 <= clock env i <= clock env (S i) /\ clock env (S i) < 2 ^ 64.

Definition pid_fits (env : Environment) : Prop := 0 <= pid env < 2 ^ 32.

(** The stream that the generator holds, if any, has not been closed. *)
Definition stream_open (m : Machine) : Prop :=
  stream (self m) = None \/ line (world m) = Active \/ line (world m) = Stopped.

(** Whatever the generator holds of the device has been given back. *)
Definition released (m : Machine) : bool :=
  match stream (self m) with
  | Some _ => match line (world m) with Closed => true | _ => false end
  | None => true
  end
  && match audio (self m) with
     | Some _ => match pa (world m) with PaTerminated => true | _ => false end
     | None => true
     end.

(** What [os.urandom(n)] returns in a given state. *)
Definition urandom_at (env : Environment) (m : Machine) (n : nat) : bytes :=
  map (fun i => urandom_src env i mod 256) (seq (drawn (world m)) n).

(** The state in which [next] leaves a generator that collected
    [entropy] and reached [m1] while doing so. *)
Definition conditioned (entropy : bytes) (m1 : Machine) : Machine :=
  let history :=
    Deque.extend 10000 (entropy_history (self m1)) (take 100 entropy) in
  let folded := xor_result (entropy_pool (self m1)) entropy in
  {| self := set_entropy_pool (take 24 (drop 4 folded))
               (set_entropy_history history (self m1));
     world := world m1 |}.

(** [keeps R c]: the state after [c], whether it returned or raised, is
    related by [R] to the state before. *)
Definition keeps {A} (R : Machine -> Machine -> Prop) (c : M Machine A) : Prop :=
  forall m, R m (snd (c m)).

(** Agreement on one attribute of the generator. *)
Definition same_on {X} (f : Generator -> X) (m m' : Machine) : Prop :=
  f (self m') = f (self m).

(** What fits [np.uint64] and the format ['Q']. *)
Definition fits64 (x : Z) : Prop := 0 <= x < 2 ^ 64.

(** The history respects the capacity of its deque. *)
Definition history_fits (m : Machine) : Prop :=
  Z.of_nat (length (entropy_history (self m))) <= 10000.

Definition history_stays_fit (m m' : Machine) : Prop :=
  history_fits m -> history_fits m'.

(* ================================================================== *)
(** ** Sample environments *)
(* ================================================================== *)

(** A little-endian host without the audio library. *)
Definition fallback_host : Environment := {|
  byteorder := little;
  AUDIO_AVAILABLE := false;
  pid := 4242;
  clock := fun i => Z.min (1700000000000000000 + 1000 * Z.of_nat i) (2 ^ 64 - 1);
  urandom_src := fun i => 37 * Z.of_nat i + 11;
  pa_init_fails := false;
  pa_open_fails := false;
  mic_signal := fun i => (Z.of_nat i * Z.of_nat i / 3 + Z.of_nat i) mod 1000 - 500;
  mic_fault := fun _ => false;
  spectrum := fun _ _ => 0;
  np_mean := fun _ => NaN;
  np_std := fun _ => NaN;
  np_corrcoef := fun _ _ => NaN
|}.

(** The same host with a working microphone, ... *)
Definition studio_host : Environment := {|
  byteorder := little;
  AUDIO_AVAILABLE := true;
  pid := 4242;
  clock := clock fallback_host;
  urandom_src := urandom_src fallback_host;
  pa_init_fails := false;
  pa_open_fails := false;
  mic_signal := mic_signal fallback_host;
  mic_fault := fun _ => false;
  spectrum := fun _ _ => 0;
  np_mean := fun _ => NaN;
  np_std := fun _ => NaN;
  np_corrcoef := fun _ _ => NaN
|}.

(** ... and with a microphone whose reads fail after the first one. *)
Definition flaky_host : Environment := {|
  byteorder := little;
  AUDIO_AVAILABLE := true;
  pid := 4242;
  clock := clock fallback_host;
  urandom_src := urandom_src fallback_host;
  pa_init_fails := false;
  pa_open_fails := false;
  mic_signal := mic_signal fallback_host;
  mic_fault := fun k => (1 <=? k)%nat;
  spectrum := fun _ _ => 0;
  np_mean := fun _ => NaN;
  np_std := fun _ => NaN;
  np_corrcoef := fun _ _ => NaN
|}.

(** Generators built with the default parameters on these hosts. *)
Definition fallback_generator : Machine :=
  snd (__init__ fallback_host 44100 1024 boot).

Definition studio_generator : Machine :=
  snd (__init__ studio_host 44100 1024 boot).

(** The first of them with something already in its history. *)
Definition used_generator : Machine :=
  {| self := set_entropy_history [1; 2; 3] (self fallback_generator);
     world := world fallback_generator |}.

(** The first of them after two calls of [next]. *)
Definition warm_generator : Machine :=
  after_all fallback_host [call_next; call_next] fallback_generator.

(* ================================================================== *)
(** ** Further conditions *)
(* ================================================================== *)



(** Agreement on the state of the device library. *)
Definition same_device (m m' : Machine) : Prop :=
  line (world m') = line (world m) /\ pa (world m') = pa (world m).

(** A host without the audio library whose clock steps back at its
    reading number 42. *)
Definition jumpy_host : Environment := {|
  byteorder := little;
  AUDIO_AVAILABLE := false;
  pid := 4242;
  clock := fun i => if (i =? 42)%nat then 5 else 1000 * Z.of_nat i;
  urandom_src := urandom_src fallback_host;
  pa_init_fails := false;
  pa_open_fails := false;
  mic_signal := mic_signal fallback_host;
  mic_fault := fun _ => false;
  spectrum := fun _ _ => 0;
  np_mean := fun _ => NaN;
  np_std := fun _ => NaN;
  np_corrcoef := fun _ _ => NaN
|}.

(** A generator on that host with two samples waiting in its queue. *)
Definition jumpy_generator : Machine :=
  {| self := set_entropy_queue [[1; 2]; [3]]
               (self (snd (__init__ jumpy_host 44100 1024 boot)));
     world := world (snd (__init__ jumpy_host 44100 1024 boot)) |}.

(** The references that a generator holds. *)
Definition handles (g : Generator)
  : option PyAudioRef * option StreamRef * option ThreadRef :=
  (audio g, stream g, collection_thread g).

(** A generator on [studio_host] whose queue is full. *)
Definition saturated_generator : Machine :=
  {| self := set_entropy_queue (repeat [7] 1000) (self studio_generator);
     world := world studio_generator |}.

(** The pool only grew. *)
Definition pool_grows (m m' : Machine) : Prop :=
  exists seed, entropy_pool (self m') = entropy_pool (self m) ++ seed.

(** The pool holds at least the 24 bytes that [next] leaves. *)
Definition pool_stays_filled (m m' : Machine) : Prop :=
  (24 <= length (entropy_pool (self m)))%nat ->
  (24 <= length (entropy_pool (self m')))%nat.

(** The generator as [_collect_additional_entropy] finds it once the
    queue is drained. *)
Definition drained (m : Machine) : Machine :=
  {| self := set_entropy_queue [] (self m); world := world m |}.

(** A generator whose history holds every byte value once. *)
Definition rainbow_generator : Machine :=
  {| self := set_entropy_history (map Z.of_nat (seq 0 256))
               (self fallback_generator);
     world := world fallback_generator |}.

(* ================================================================== *)
(** ** [hashlib] against its published vectors *)
(* ================================================================== *)

Example sha256_abc :
  SHA2.sha256 [97; 98; 99]
  = [0xba; 0x78; 0x16; 0xbf; 0x8f; 0x01; 0xcf; 0xea; 0x41; 0x41; 0x40; 0xde;
     0x5d; 0xae; 0x22; 0x23; 0xb0; 0x03; 0x61; 0xa3; 0x96; 0x17; 0x7a; 0x9c;
     0xb4; 0x10; 0xff; 0x61; 0xf2; 0x00; 0x15; 0xad].
Proof. vm_compute. reflexivity. Qed.

Example sha512_abc :
  SHA2.sha512 [97; 98; 99]
  = [0xdd; 0xaf; 0x35; 0xa1; 0x93; 0x61; 0x7a; 0xba; 0xcc; 0x41; 0x73; 0x49;
     0xae; 0x20; 0x41; 0x31; 0x12; 0xe6; 0xfa; 0x4e; 0x89; 0xa9; 0x7e; 0xa2;
     0x0a; 0x9e; 0xee; 0xe6; 0x4b; 0x55; 0xd3; 0x9a; 0x21; 0x92; 0x99; 0x2a;
     0x27; 0x4f; 0xc1; 0xa8; 0x36; 0xba; 0x3c; 0x23; 0xa3; 0xfe; 0xeb; 0xbd;
     0x45; 0x4d; 0x44; 0x23; 0x64; 0x3c; 0xe8; 0x0e; 0x2a; 0x9a; 0xc9; 0x4f;
     0xa5; 0x4c; 0xa4; 0x9f].
Proof. vm_compute. reflexivity. Qed.

(** A message of several blocks: the bytes 0, 1, ..., 199. *)
Example sha256_two_hundred :
  take 8 (SHA2.sha256 (map Z.of_nat (seq 0 200)))
  = [0x19; 0x01; 0xda; 0x1c; 0x9f; 0x69; 0x9b; 0x48].
Proof. vm_compute. reflexivity. Qed.

Example sha512_two_hundred :
  take 8 (SHA2.sha512 (map Z.of_nat (seq 0 200)))
  = [0x98; 0x60; 0x58; 0xe9; 0x89; 0x5e; 0x2c; 0x2a].
Proof. vm_compute. reflexivity. Qed.

Example sha256_empty :
  take 4 (SHA2.sha256 []) = [0xe3; 0xb0; 0xc4; 0x42].
Proof. vm_compute. reflexivity. Qed.

(* ================================================================== *)
(** ** Lengths of digests and of packed integers *)
(* ================================================================== *)

Lemma be_encode_length n x : length (SHA2.be_encode n x) = n.
Proof.
  revert x. induction n as [|n IH]; intros x; simpl; [reflexivity|].
  rewrite length_app, IH. simpl. lia.
Qed.

Lemma hash_length v msg :
  length (SHA2.hash v msg) = (8 * SHA2.wbytes v)%nat.
Proof.
  unfold SHA2.hash.
  destruct (fold_left _ _ _) as [[[[[[[a b] c] d] e] f] g] h].
  unfold SHA2.serialise. rewrite !length_app, !be_encode_length. lia.
Qed.

Lemma sha256_length msg : length (SHA2.sha256 msg) = 32%nat.
Proof. unfold SHA2.sha256. rewrite hash_length. reflexivity. Qed.

Lemma sha512_length msg : length (SHA2.sha512 msg) = 64%nat.
Proof. unfold SHA2.sha512. rewrite hash_length. reflexivity. Qed.

Lemma xor_result_length pool entropy :
  length (xor_result pool entropy) = 32%nat.
Proof.
  unfold xor_result. rewrite length_zip_with, length_take, length_drop.
  unfold stage2_hash. rewrite sha512_length. reflexivity.
Qed.

Lemma encode_length bo n x : length (encode bo n x) = n.
Proof.
  destruct bo; simpl; [rewrite length_rev|]; apply be_encode_length.
Qed.

Lemma struct_pack_length bo n x b :
  struct_pack bo n x = Ok b -> length b = n.
Proof.
  unfold struct_pack. destruct (_ && _); [|discriminate].
  intros [= <-]. apply encode_length.
Qed.

(* ================================================================== *)
(** ** Von Neumann debiasing *)
(* ================================================================== *)

Section Debias.

Lemma debias_loop_pairs fuel :
  forall pre rest acc,
    (length rest <= 2 * fuel + 1)%nat ->
    debias_loop fuel (pre ++ rest) (length pre) acc
    = acc ++ emit_differing (adjacent_pairs rest).
Proof.
  induction fuel as [|fuel IH]; intros pre rest acc Hlen.
  - destruct rest as [|a [|b rest]]; simpl in *; try lia;
      now rewrite app_nil_r.
  - cbn [debias_loop]. rewrite length_app.
    destruct rest as [|a [|b rest]].
    + destruct (_ <? _) eqn:E;
        [apply Z.ltb_lt in E; simpl in E; lia
        | simpl; now rewrite app_nil_r].
    + destruct (_ <? _) eqn:E;
        [apply Z.ltb_lt in E; simpl in E; lia
        | simpl; now rewrite app_nil_r].
    + destruct (_ <? _) eqn:E;
        [| apply Z.ltb_ge in E; simpl in E; lia].
      assert (Ha : nth (length pre) (pre ++ a :: b :: rest) 0 = a).
      { rewrite app_nth2 by lia. now rewrite Nat.sub_diag. }
      assert (Hb : nth (length pre + 1) (pre ++ a :: b :: rest) 0 = b).
      { rewrite app_nth2 by lia.
        now replace (length pre + 1 - length pre)%nat with 1%nat by lia. }
      rewrite Ha, Hb.
      replace (pre ++ a :: b :: rest) with ((pre ++ [a; b]) ++ rest)
        by now rewrite <- app_assoc.
      replace (length pre + 2)%nat with (length (pre ++ [a; b]))
        by (rewrite length_app; simpl; lia).
      rewrite IH by (simpl in Hlen; lia).
      cbn [adjacent_pairs emit_differing flat_map fst snd].
      destruct (a =? b); simpl; [reflexivity|].
      now rewrite <- app_assoc.
Qed.

Lemma debias_loop_spec bits :
  debias_loop (length bits) bits 0 [] = emit_differing (adjacent_pairs bits).
Proof.
  apply (debias_loop_pairs (length bits) [] bits []). lia.
Qed.

(** Induction over a list two elements at a time. *)
Lemma pairwise_ind (P : list Z -> Prop) :
  P [] -> (forall a, P [a]) ->
  (forall a b rest, P rest -> P (a :: b :: rest)) ->
  forall l, P l.
Proof.
  intros H0 H1 H2 l.
  assert (H : P l /\ forall a, P (a :: l)).
  { induction l as [|x l [IHl IHxl]]; split; auto. }
  apply H.
Qed.

Lemma emit_differing_short bits :
  (2 * length (emit_differing (adjacent_pairs bits)) <= length bits)%nat.
Proof.
  induction bits as [| a | a b rest IH] using pairwise_ind;
    simpl; try lia.
  destruct (a =? b); simpl; lia.
Qed.

Lemma emit_differing_bits bits :
  Forall is_bit bits -> Forall is_bit (emit_differing (adjacent_pairs bits)).
Proof.
  induction bits as [| a | a b rest IH] using pairwise_ind;
    intros H; simpl; try constructor.
  inversion H as [|? ? Ha H']; subst. inversion H' as [|? ? Hb Hrest]; subst.
  destruct (a =? b); simpl; auto.
Qed.

Lemma bytes_of_bits xs : Forall is_bit xs -> bytes_of_ints xs = Ok xs.
Proof.
  intros H. unfold bytes_of_ints.
  replace (forallb _ xs) with true; [reflexivity|].
  symmetry. apply forallb_forall. intros x Hx.
  rewrite Forall_forall in H. destruct (H x) as [-> | ->]; auto.
  now apply list_elem_of_In.
Qed.

Lemma bytes_of_ints_Ok xs out : bytes_of_ints xs = Ok out -> out = xs.
Proof.
  unfold bytes_of_ints. destruct (forallb _ _); [|discriminate].
  now intros [= <-].
Qed.

End Debias.

(** C5. Von Neumann debiasing.  The loop of [_von_neumann_debias] walks
    the disjoint adjacent pairs of its input and keeps the first bit of a
    pair exactly when the two bits differ; [0,0,1,1] gives the empty
    output, [0,1,0,1] gives [0,0]; on every sequence of bits the call
    returns, and whatever it returns is at most half as long as the
    input (rounded down). *)
Theorem von_neumann_debias_pairs :
  (forall bits,
      debias_loop (length bits) bits 0 []
      = emit_differing (adjacent_pairs bits))
  /\ _von_neumann_debias [0; 0; 1; 1] = Ok []
  /\ _von_neumann_debias [0; 1; 0; 1] = Ok [0; 0]
  /\ (forall bits,
         Forall is_bit bits ->
         _von_neumann_debias bits = Ok (emit_differing (adjacent_pairs bits)))
  /\ (forall bits out,
         _von_neumann_debias bits = Ok out ->
         (length out <= length bits / 2)%nat).
Proof.
  split; [exact debias_loop_spec|].
  split; [reflexivity|]. split; [reflexivity|]. split.
  - intros bits Hbits. unfold _von_neumann_debias.
    rewrite debias_loop_spec.
    apply bytes_of_bits, emit_differing_bits, Hbits.
  - intros bits out H. unfold _von_neumann_debias in H.
    apply bytes_of_ints_Ok in H. subst out. rewrite debias_loop_spec.
    apply Nat.div_le_lower_bound; [lia|]. apply emit_differing_short.
Qed.

Lemma von_neumann_debias_pairs_witness :
  Forall is_bit [1; 0; 1; 1; 0] /\
  _von_neumann_debias [1; 0; 1; 1; 0] = Ok [1] /\
  (length [1] <= length [1; 0; 1; 1; 0] / 2)%nat.
Proof.
  destruct von_neumann_debias_pairs as (_ & _ & _ & Hret & Hlen).
  assert (Hb : Forall is_bit [1; 0; 1; 1; 0]).
  { repeat (constructor; [unfold is_bit; lia|]). constructor. }
  split; [exact Hb|]. split.
  - exact (Hret _ Hb).
  - exact (Hlen _ _ (Hret _ Hb)).
Defined.

(* ================================================================== *)
(** ** What a computation leaves unchanged *)
(* ================================================================== *)

Section Keeps.
Variable R : Machine -> Machine -> Prop.
Hypothesis R_refl : forall m, R m m.
Hypothesis R_trans : forall m1 m2 m3, R m1 m2 -> R m2 m3 -> R m1 m3.

Lemma keeps_ret {A} (a : A) : keeps R (ret a).
Proof. intros m. apply R_refl. Qed.

Lemma keeps_raise {A} e : keeps R (raise e : M Machine A).
Proof. intros m. apply R_refl. Qed.

Lemma keeps_lift {A} (r : result A) : keeps R (lift r).
Proof. intros m. apply R_refl. Qed.

Lemma keeps_gets {A} (f : Machine -> A) : keeps R (gets f).
Proof. intros m. apply R_refl. Qed.

Lemma keeps_bind {A B} (c : M Machine A) (k : A -> M Machine B) :
  keeps R c -> (forall a, keeps R (k a)) -> keeps R (bind c k).
Proof.
  intros Hc Hk m. unfold bind. specialize (Hc m).
  destruct (c m) as [[a|e] m']; simpl in *; [|exact Hc].
  eapply R_trans; [exact Hc | apply Hk].
Qed.

Lemma keeps_try {A} (c : M Machine A) (h : exn -> M Machine A) :
  keeps R c -> (forall e, keeps R (h e)) -> keeps R (try_except c h).
Proof.
  intros Hc Hh m. unfold try_except. specialize (Hc m).
  destruct (c m) as [[a|e] m']; simpl in *; [exact Hc|].
  eapply R_trans; [exact Hc | apply Hh].
Qed.

Lemma keeps_loop {A} (body : M Machine A) n :
  keeps R body -> keeps R (collect_loop n body).
Proof.
  intros Hb. induction n as [|n IH]; simpl.
  - apply keeps_ret.
  - apply keeps_bind; [exact Hb|]. intros x.
    apply keeps_bind; [exact IH|]. intros xs. apply keeps_ret.
Qed.
End Keeps.

Lemma same_on_refl {X} (f : Generator -> X) m : same_on f m m.
Proof. reflexivity. Qed.

Lemma same_on_trans {X} (f : Generator -> X) m1 m2 m3 :
  same_on f m1 m2 -> same_on f m2 m3 -> same_on f m1 m3.
Proof. unfold same_on. congruence. Qed.

(** Reading the device touches the world only. *)
Lemma stream_read_self env s n m : self (snd (stream_read env s n m)) = self m.
Proof.
  unfold stream_read. destruct (n <? 0); [reflexivity|].
  destruct (line (world m)); try reflexivity.
  destruct (mic_fault env _); reflexivity.
Qed.

(** Frame proofs follow the syntax of a method; [leaf] settles the
    primitive operations. *)
Ltac frame_with Hrefl Htrans leaf :=
  repeat lazymatch goal with
  | |- keeps _ (let _ := _ in _) => cbv zeta
  | |- keeps _ (bind _ _) => apply keeps_bind; [exact Htrans | | intros ?]
  | |- keeps _ (try_except _ _) => apply keeps_try; [exact Htrans | | intros ?]
  | |- keeps _ (collect_loop _ _) =>
      apply keeps_loop; [exact Hrefl | exact Htrans |]
  | |- keeps _ (ret _) => apply keeps_ret; exact Hrefl
  | |- keeps _ (raise _) => apply keeps_raise; exact Hrefl
  | |- keeps _ (lift _) => apply keeps_lift; exact Hrefl
  | |- keeps _ (gets _) => apply keeps_gets; exact Hrefl
  | |- keeps _ (if ?b then _ else _) => destruct b
  | |- keeps _ (match ?x with _ => _ end) => destruct x
  | |- keeps _ _ => leaf
  end.

Section FrameSelf.
Context {X : Type} (f : Generator -> X).
Variable env : Environment.

Lemma frame_time_ns : keeps (same_on f) (time_ns env).
Proof. intros m. reflexivity. Qed.

Lemma frame_os_urandom n : keeps (same_on f) (os_urandom env n).
Proof. intros m. reflexivity. Qed.

Lemma frame_os_getpid : keeps (same_on f) (os_getpid env).
Proof. intros m. reflexivity. Qed.

Lemma frame_stream_read s n : keeps (same_on f) (stream_read env s n).
Proof. intros m. unfold same_on. now rewrite stream_read_self. Qed.

Lemma frame_on_world g : keeps (same_on f) (on_world g).
Proof. intros m. reflexivity. Qed.

Lemma frame_on_self g : (forall s, f (g s) = f s) -> keeps (same_on f) (on_self g).
Proof. intros H m. unfold same_on. simpl. apply H. Qed.

Lemma frame_stream_is_stopped s : keeps (same_on f) (stream_is_stopped s).
Proof.
  unfold stream_is_stopped. intros m. unfold bind, gets.
  destruct (line (world m)); reflexivity.
Qed.

Lemma frame_stream_unusable : keeps (same_on f) stream_unusable.
Proof.
  unfold stream_unusable. intros m. unfold bind, gets.
  destruct (stream (self m)); [apply frame_stream_is_stopped | reflexivity].
Qed.

Lemma frame_collect_microphone_entropy :
  keeps (same_on f) (_collect_microphone_entropy env).
Proof.
  unfold _collect_microphone_entropy.
  frame_with (same_on_refl f) (same_on_trans f)
    ltac:(first [ apply frame_stream_unusable | apply frame_os_urandom
                | apply frame_stream_read | apply frame_time_ns ]).
Qed.
End FrameSelf.

Ltac frame_leaf :=
  first [ apply frame_time_ns | apply frame_os_urandom | apply frame_os_getpid
        | apply frame_stream_read | apply frame_on_world
        | apply frame_stream_unusable | apply frame_stream_is_stopped
        | apply frame_collect_microphone_entropy
        | apply frame_on_self; intros ?; reflexivity ].

Ltac frame f := frame_with (same_on_refl f) (same_on_trans f) frame_leaf.

Lemma frame_collect_additional_entropy {X} (f : Generator -> X) env :
  (forall q g, f (set_entropy_queue q g) = f g) ->
  keeps (same_on f) (_collect_additional_entropy env).
Proof.
  intros Hq. unfold _collect_additional_entropy. frame f.
  apply frame_on_self. intros g. apply Hq.
Qed.

(** [next] is the collection of entropy followed by the conditioning. *)
Lemma next_unfold env m :
  next env m =
  match _collect_additional_entropy env m with
  | (Ok entropy, m1) =>
      (Ok (decode (byteorder env)
             (take 4 (xor_result (entropy_pool (self m1)) entropy))),
       conditioned entropy m1)
  | (Raise e, m1) => (Raise e, m1)
  end.
Proof.
  unfold next, bind at 1.
  destruct (_collect_additional_entropy env m) as [[entropy|e] m1];
    [|reflexivity].
  unfold bind, on_self, modify, gets, lift, ret, struct_unpack_I.
  cbv beta iota. cbn [self world entropy_pool set_entropy_history].
  rewrite length_take, xor_result_length.
  change (4 `min` 32 =? 4)%nat with true. cbv beta iota.
  reflexivity.
Qed.

Lemma collect_keeps_pool env m :
  entropy_pool (self (snd (_collect_additional_entropy env m)))
  = entropy_pool (self m).
Proof.
  apply (frame_collect_additional_entropy entropy_pool env). reflexivity.
Qed.

Lemma collect_keeps_history env m :
  entropy_history (self (snd (_collect_additional_entropy env m)))
  = entropy_history (self m).
Proof.
  apply (frame_collect_additional_entropy entropy_history env). reflexivity.
Qed.

(* ================================================================== *)
(** ** When the methods return *)
(* ================================================================== *)

Lemma bind_Ok {S A B} (c : M S A) (k : A -> M S B) s a s' :
  c s = (Ok a, s') -> bind c k s = k a s'.
Proof. intros H. unfold bind. now rewrite H. Qed.

Lemma np_array_uint64_Ok xs :
  Forall fits64 xs -> np_array_uint64 xs = Ok xs.
Proof.
  intros H. unfold np_array_uint64.
  replace (forallb _ xs) with true; [reflexivity|].
  symmetry. apply forallb_forall. intros x Hx.
  rewrite Forall_forall in H. apply list_elem_of_In in Hx.
  destruct (H x Hx). apply andb_true_intro. split; lia.
Qed.

Lemma struct_pack_Ok bo n x :
  0 <= x < 256 ^ Z.of_nat n -> struct_pack bo n x = Ok (encode bo n x).
Proof.
  intros H. unfold struct_pack.
  replace (_ && _) with true; [reflexivity|].
  symmetry. apply andb_true_intro. split; lia.
Qed.

Lemma loop_returns {A} (body : M Machine A) (P : A -> Prop) n :
  (forall m, exists a m', body m = (Ok a, m') /\ P a) ->
  forall m, exists xs m', collect_loop n body m = (Ok xs, m') /\ Forall P xs.
Proof.
  intros Hb. induction n as [|n IH]; intros m; simpl.
  - exists [], m. split; [reflexivity | constructor].
  - destruct (Hb m) as (a & m1 & E1 & Ha).
    destruct (IH m1) as (xs & m2 & E2 & Hxs).
    exists (a :: xs), m2. split; [|now constructor].
    rewrite (bind_Ok _ _ _ _ _ E1), (bind_Ok _ _ _ _ _ E2). reflexivity.
Qed.

Section Returns.
Variable env : Environment.
Hypothesis Hclock : steady_clock env.

Lemma clock_fits i : fits64 (clock env i).
Proof.
  unfold fits64. destruct (Hclock i) as [[H0 H1] H2]. lia.
Qed.

Lemma clock_step_fits i : fits64 (clock env (S i) - clock env i).
Proof.
  unfold fits64. destruct (Hclock i) as [[H0 H1] H2]. lia.
Qed.

Lemma jitter_getpid_returns m :
  exists d m',
    (start <- time_ns env ;; _ <- os_getpid env ;; end_ <- time_ns env ;;
     ret (end_ - start)) m = (Ok d, m') /\ fits64 d.
Proof.
  eexists _, _. split; [reflexivity|]. simpl. apply clock_step_fits.
Qed.

Lemma stream_unusable_returns m :
  stream_open m -> exists b, stream_unusable m = (Ok b, m).
Proof.
  unfold stream_open, stream_unusable, stream_is_stopped, bind, gets.
  destruct (stream (self m)); [|eexists; reflexivity].
  intros [H | [H | H]]; [discriminate | |]; rewrite H; eexists; reflexivity.
Qed.

(** No exception escapes [_collect_microphone_entropy] once the state of
    the stream could be read. *)
Lemma collect_microphone_entropy_returns m :
  stream_open m ->
  exists sample m', _collect_microphone_entropy env m = (Ok sample, m').
Proof.
  intros Hopen. unfold _collect_microphone_entropy.
  destruct (stream_unusable_returns m Hopen) as (b & Eb).
  rewrite (bind_Ok _ _ _ _ _ Eb).
  destruct b; [eexists _, _; reflexivity|].
  unfold try_except.
  destruct (bind _ _ m) as [[a|e] m']; eexists _, _; reflexivity.
Qed.

Lemma collect_additional_entropy_returns m :
  stream_open m ->
  exists entropy m', _collect_additional_entropy env m = (Ok entropy, m').
Proof.
  intros Hopen. unfold _collect_additional_entropy.
  unfold bind at 1, gets. unfold bind at 1, on_self, modify.
  set (m0 := {| self := _; world := world m |}).
  assert (H0 : stream_open m0) by exact Hopen.
  destruct (collect_microphone_entropy_returns m0 H0) as (fresh & m1 & E1).
  rewrite (bind_Ok _ _ _ _ _ E1).
  unfold bind at 1. cbn [os_urandom].
  set (m2 := {| self := self m1; world := _ |}).
  destruct (loop_returns _ fits64 20 jitter_getpid_returns m2)
    as (js & m3 & E3 & Hjs).
  rewrite (bind_Ok _ _ _ _ _ E3).
  unfold bind at 1, lift. rewrite (np_array_uint64_Ok _ Hjs).
  unfold bind, time_ns, lift, ret. cbn -[struct_pack Z.pow].
  rewrite struct_pack_Ok; [eexists _, _; reflexivity|].
  apply clock_step_fits.
Qed.

Lemma next_returns m :
  stream_open m -> exists out m', next env m = (Ok out, m').
Proof.
  intros Hopen. rewrite next_unfold.
  destruct (collect_additional_entropy_returns m Hopen) as (e & m1 & E).
  rewrite E. eexists _, _. reflexivity.
Qed.
End Returns.

(* ================================================================== *)
(** ** The conditioner: output and replacement pool *)
(* ================================================================== *)

Lemma be_decode_bound bs :
  0 <= SHA2.be_decode bs < 256 ^ Z.of_nat (length bs).
Proof.
  unfold SHA2.be_decode.
  assert (H : forall acc, 0 <= acc ->
            0 <= fold_left (fun a b => a * 256 + b mod 256) bs acc
            < (acc + 1) * 256 ^ Z.of_nat (length bs)).
  { induction bs as [|b bs IH]; intros acc Hacc.
    - simpl. lia.
    - cbn [fold_left length]. rewrite Nat2Z.inj_succ, Z.pow_succ_r by lia.
      pose proof (Z.mod_pos_bound b 256 ltac:(lia)) as Hb.
      specialize (IH (acc * 256 + b mod 256) ltac:(lia)).
      split; [apply IH|].
      eapply Z.lt_le_trans; [apply IH|].
      assert (0 < 256 ^ Z.of_nat (length bs)) by (apply Z.pow_pos_nonneg; lia).
      nia. }
  specialize (H 0 ltac:(lia)). lia.
Qed.

Lemma decode_bound bo bs : 0 <= decode bo bs < 256 ^ Z.of_nat (length bs).
Proof.
  destruct bo; simpl; [|apply be_decode_bound].
  rewrite <- (length_rev bs). apply be_decode_bound.
Qed.

Lemma next_inv env m out m' :
  next env m = (Ok out, m') ->
  exists entropy m1,
    _collect_additional_entropy env m = (Ok entropy, m1)
    /\ entropy_pool (self m1) = entropy_pool (self m)
    /\ entropy_history (self m1) = entropy_history (self m)
    /\ out = decode (byteorder env)
               (take 4 (xor_result (entropy_pool (self m)) entropy))
    /\ m' = conditioned entropy m1.
Proof.
  rewrite next_unfold.
  destruct (_collect_additional_entropy env m) as [[entropy|e] m1] eqn:E;
    [|discriminate].
  intros H. apply pair_equal_spec in H as [Hout Hm'].
  apply (f_equal (fun r => match r with Ok a => a | Raise _ => out end))
    in Hout.
  subst out m'. exists entropy, m1.
  pose proof (collect_keeps_pool env m) as Hp.
  pose proof (collect_keeps_history env m) as Hh.
  rewrite E in Hp, Hh. simpl in Hp, Hh. rewrite Hp. auto.
Qed.

Lemma next_output_fits env m out m' :
  next env m = (Ok out, m') ->
  0 <= out < 2 ^ 32 /\ length (entropy_pool (self m')) = 24%nat.
Proof.
  intros H.
  destruct (next_inv env m out m' H) as (entropy & m1 & _ & _ & _ & -> & ->).
  split.
  - pose proof (decode_bound (byteorder env)
                  (take 4 (xor_result (entropy_pool (self m)) entropy))) as Hb.
    rewrite length_take, xor_result_length in Hb. exact Hb.
  - unfold conditioned. cbn [self entropy_pool set_entropy_pool].
    rewrite length_take, length_drop, xor_result_length. reflexivity.
Qed.

(** C2. After every call of [next] that returns, whatever the pool was
    before, the pool is exactly the 24 bytes that follow the first 4 in
    the XOR-folded stage-2 digest; and [next] does return when the clock
    is steady and the stream, if any, is open. *)
Theorem next_replaces_pool env m :
  (forall out m',
      next env m = (Ok out, m') ->
      exists entropy m1,
        _collect_additional_entropy env m = (Ok entropy, m1)
        /\ entropy_pool (self m')
           = take 24 (drop 4 (xor_result (entropy_pool (self m)) entropy))
        /\ length (entropy_pool (self m')) = 24%nat)
  /\ (steady_clock env -> stream_open m ->
      exists out m', next env m = (Ok out, m')).
Proof.
  split.
  - intros out m' H.
    destruct (next_inv env m out m' H) as (entropy & m1 & E & Hp & _ & _ & ->).
    exists entropy, m1. split; [exact E|].
    unfold conditioned. cbn [self entropy_pool set_entropy_pool].
    rewrite Hp. split; [reflexivity|].
    rewrite length_take, length_drop, xor_result_length. reflexivity.
  - intros Hc Ho. apply next_returns; assumption.
Qed.

(** C3, as the code has it.  The integer returned by [next] is the first
    4 bytes of the XOR-folded stage-2 digest read as an unsigned 32-bit
    integer in the byte order of the host: little-endian on a
    little-endian host, big-endian on a big-endian one. *)
Theorem next_output_native_order env m out m' :
  next env m = (Ok out, m') ->
  exists entropy m1,
    _collect_additional_entropy env m = (Ok entropy, m1)
    /\ out = decode (byteorder env)
               (take 4 (xor_result (entropy_pool (self m)) entropy))
    /\ 0 <= out < 2 ^ 32
    /\ (byteorder env = big ->
        out = SHA2.be_decode
                (take 4 (xor_result (entropy_pool (self m)) entropy)))
    /\ (byteorder env = little ->
        out = SHA2.be_decode
                (rev (take 4 (xor_result (entropy_pool (self m)) entropy)))).
Proof.
  intros H.
  destruct (next_inv env m out m' H) as (entropy & m1 & E & _ & _ & -> & _).
  exists entropy, m1. split; [exact E|]. split; [reflexivity|]. split.
  - pose proof (decode_bound (byteorder env)
                  (take 4 (xor_result (entropy_pool (self m)) entropy))) as Hb.
    rewrite length_take, xor_result_length in Hb. exact Hb.
  - split; intros ->; reflexivity.
Qed.

(** C6. The output of [next] and the pool it leaves are determined by
    the pool before the call and by the entropy collected during it (and
    by the byte order of the host): two calls that start from equal pools
    and collect equal entropy return the same integer and leave equal
    pools, whatever else differs between the two generators. *)
Theorem next_determined_by_pool_and_entropy
    env1 env2 m1 m2 entropy m1' m2' :
  byteorder env1 = byteorder env2 ->
  entropy_pool (self m1) = entropy_pool (self m2) ->
  _collect_additional_entropy env1 m1 = (Ok entropy, m1') ->
  _collect_additional_entropy env2 m2 = (Ok entropy, m2') ->
  exists out,
    fst (next env1 m1) = Ok out
    /\ fst (next env2 m2) = Ok out
    /\ entropy_pool (self (snd (next env1 m1)))
       = entropy_pool (self (snd (next env2 m2))).
Proof.
  intros Hbo Hpool E1 E2.
  pose proof (collect_keeps_pool env1 m1) as P1.
  pose proof (collect_keeps_pool env2 m2) as P2.
  rewrite E1 in P1. rewrite E2 in P2. simpl in P1, P2.
  rewrite !next_unfold, E1, E2. cbn [fst snd].
  unfold conditioned. cbn [self entropy_pool set_entropy_pool].
  rewrite P1, P2, Hpool, Hbo. eexists. repeat split.
Qed.

(** The sample hosts satisfy the conditions under which [next] returns. *)
Lemma fallback_host_steady : steady_clock fallback_host.
Proof.
  intros i. cbn [clock fallback_host].
  change (2 ^ 64) with 18446744073709551616. lia.
Defined.

Lemma fallback_generator_open : stream_open fallback_generator.
Proof. left. reflexivity. Defined.

Lemma next_replaces_pool_witness :
  exists out m',
    next fallback_host fallback_generator = (Ok out, m')
    /\ length (entropy_pool (self m')) = 24%nat.
Proof.
  destruct (next_replaces_pool fallback_host fallback_generator)
    as [Hpool Hret].
  destruct (Hret fallback_host_steady fallback_generator_open)
    as (out & m' & E).
  destruct (Hpool out m' E) as (entropy & m1 & _ & _ & Hlen).
  exists out, m'. split; [exact E | exact Hlen].
Defined.

Lemma next_output_native_order_witness :
  exists entropy m1,
    _collect_additional_entropy fallback_host fallback_generator
    = (Ok entropy, m1)
    /\ 929530096
       = SHA2.be_decode
           (rev (take 4 (xor_result (entropy_pool (self fallback_generator))
                           entropy))).
Proof.
  destruct (next_output_native_order fallback_host fallback_generator
              929530096 (snd (next fallback_host fallback_generator)))
    as (entropy & m1 & E & _ & _ & _ & Hlittle).
  - vm_compute. reflexivity.
  - exists entropy, m1. split; [exact E|]. apply Hlittle. reflexivity.
Defined.

(** C3, as the specification has it, fails on a little-endian host: the
    generator built on [fallback_host] returns 929530096 from its first
    call, and the big-endian reading of the same four bytes is
    4034946871. *)
Lemma next_output_not_big_endian :
  exists entropy m1 out m',
    _collect_additional_entropy fallback_host fallback_generator
    = (Ok entropy, m1)
    /\ next fallback_host fallback_generator = (Ok out, m')
    /\ out = 929530096
    /\ SHA2.be_decode
         (take 4 (xor_result (entropy_pool (self fallback_generator)) entropy))
       = 4034946871
    /\ out <> SHA2.be_decode
                (take 4 (xor_result (entropy_pool (self fallback_generator))
                           entropy)).
Proof.
  eexists _, _, _, _.
  split; [vm_compute; reflexivity|].
  split; [vm_compute; reflexivity|].
  split; [reflexivity|].
  split; [vm_compute; reflexivity|].
  vm_compute. discriminate.
Qed.

Lemma next_determined_by_pool_and_entropy_witness :
  exists out,
    fst (next fallback_host fallback_generator) = Ok out
    /\ fst (next fallback_host used_generator) = Ok out
    /\ entropy_pool (self (snd (next fallback_host fallback_generator)))
       = entropy_pool (self (snd (next fallback_host used_generator))).
Proof.
  eapply (next_determined_by_pool_and_entropy
            fallback_host fallback_host fallback_generator used_generator).
  - reflexivity.
  - reflexivity.
  - vm_compute. reflexivity.
  - vm_compute. reflexivity.
Defined.

(* ================================================================== *)
(** ** The history of collected bytes *)
(* ================================================================== *)

Lemma deque_append_bound maxlen d x :
  Z.of_nat (length d) <= maxlen ->
  Z.of_nat (length (Deque.append maxlen d x)) <= maxlen.
Proof.
  intros H. unfold Deque.append.
  destruct (maxlen <=? 0) eqn:E0; [exact H|].
  apply Z.leb_gt in E0.
  destruct (maxlen <=? Z.of_nat (length d)) eqn:E1.
  - apply Z.leb_le in E1. rewrite length_app.
    destruct d as [|y d]; simpl in *; lia.
  - apply Z.leb_gt in E1. rewrite length_app. simpl. lia.
Qed.

Lemma deque_append_grow maxlen d x :
  (length (Deque.append maxlen d x) <= length d + 1)%nat.
Proof.
  unfold Deque.append.
  destruct (maxlen <=? 0); [lia|].
  destruct (maxlen <=? Z.of_nat (length d)); rewrite length_app; simpl;
    [destruct d; simpl; lia | lia].
Qed.

Lemma deque_extend_bound maxlen xs :
  forall d, Z.of_nat (length d) <= maxlen ->
            Z.of_nat (length (Deque.extend maxlen d xs)) <= maxlen.
Proof.
  unfold Deque.extend.
  induction xs as [|x xs IH]; intros d H; cbn [fold_left]; [exact H|].
  apply IH, deque_append_bound, H.
Qed.

Lemma deque_extend_grow maxlen xs :
  forall d, (length (Deque.extend maxlen d xs) <= length d + length xs)%nat.
Proof.
  unfold Deque.extend.
  induction xs as [|x xs IH]; intros d; cbn [fold_left length]; [lia|].
  specialize (IH (Deque.append maxlen d x)).
  pose proof (deque_append_grow maxlen d x). lia.
Qed.

Lemma history_stays_fit_refl m : history_stays_fit m m.
Proof. intros H. exact H. Qed.

Lemma history_stays_fit_trans m1 m2 m3 :
  history_stays_fit m1 m2 -> history_stays_fit m2 m3 -> history_stays_fit m1 m3.
Proof. unfold history_stays_fit. auto. Qed.

Lemma same_history_stays_fit {A} (c : M Machine A) :
  keeps (same_on entropy_history) c -> keeps history_stays_fit c.
Proof.
  intros H m Hm. unfold history_fits. rewrite (H m). exact Hm.
Qed.

Ltac frame_more :=
  first [ frame_leaf
        | progress unfold thread_join, stream_stop_stream, stream_close,
            audio_terminate, pyaudio_PyAudio, audio_open ].

Ltac frame_history :=
  frame_with (same_on_refl entropy_history) (same_on_trans entropy_history)
             frame_more.

Section History.
Variable env : Environment.

Lemma history_kept_collect_initial_entropy :
  keeps (same_on entropy_history) (_collect_initial_entropy env).
Proof. unfold _collect_initial_entropy. frame_history. Qed.

Lemma history_kept_setup_audio :
  keeps (same_on entropy_history) (_setup_audio env).
Proof. unfold _setup_audio. frame_history. Qed.

Lemma history_kept_start_continuous_collection :
  keeps (same_on entropy_history) _start_continuous_collection.
Proof. unfold _start_continuous_collection. frame_history. Qed.

Lemma history_kept_collector_iteration :
  keeps (same_on entropy_history) (collector_iteration env).
Proof. unfold collector_iteration. frame_history. Qed.

Lemma history_kept_get_audio_status :
  keeps (same_on entropy_history) (get_audio_status env).
Proof. unfold get_audio_status. frame_history. Qed.

Lemma history_kept_get_entropy_estimate :
  keeps (same_on entropy_history) get_entropy_estimate.
Proof. unfold get_entropy_estimate. frame_history. Qed.

Lemma history_kept_get_entropy_quality_metrics :
  keeps (same_on entropy_history) (get_entropy_quality_metrics env).
Proof. unfold get_entropy_quality_metrics. frame_history. Qed.

Lemma history_kept_cleanup : keeps (same_on entropy_history) cleanup.
Proof. unfold cleanup. frame_history. Qed.

Lemma history_after_init sample_rate chunk_size w :
  entropy_history (self (snd (__init__ env sample_rate chunk_size w))) = [].
Proof.
  unfold __init__.
  match goal with
  | |- entropy_history (self (snd (?c ?m))) = _ =>
      assert (H : keeps (same_on entropy_history) c); [|exact (H m)]
  end.
  pose proof history_kept_setup_audio.
  pose proof history_kept_start_continuous_collection.
  pose proof history_kept_collect_initial_entropy.
  frame_with (same_on_refl entropy_history) (same_on_trans entropy_history)
             assumption.
Qed.

(** What [next] does to the history. *)
Lemma next_history m entropy m1 :
  _collect_additional_entropy env m = (Ok entropy, m1) ->
  entropy_history (self (snd (next env m)))
  = Deque.extend 10000 (entropy_history (self m)) (take 100 entropy).
Proof.
  intros E. rewrite next_unfold, E. cbn [snd].
  pose proof (collect_keeps_history env m) as Hh. rewrite E in Hh.
  cbn [snd] in Hh. unfold conditioned.
  cbn [self entropy_history set_entropy_pool set_entropy_history].
  now rewrite Hh.
Qed.

Lemma next_history_raise m e m1 :
  _collect_additional_entropy env m = (Raise e, m1) ->
  entropy_history (self (snd (next env m))) = entropy_history (self m).
Proof.
  intros E. rewrite next_unfold, E. cbn [snd].
  pose proof (collect_keeps_history env m) as Hh. now rewrite E in Hh.
Qed.

Lemma next_keeps_history_fit : keeps history_stays_fit (next env).
Proof.
  intros m Hm. unfold history_fits.
  destruct (_collect_additional_entropy env m) as [[entropy|e] m1] eqn:E.
  - rewrite (next_history m entropy m1 E).
    apply deque_extend_bound, Hm.
  - rewrite (next_history_raise m e m1 E). exact Hm.
Qed.

Lemma after_keeps_history_fit c m :
  history_fits m -> history_fits (after env c m).
Proof.
  pose proof next_keeps_history_fit as Hnext.
  assert (Hnorm : keeps history_stays_fit (normalized_next env)).
  { unfold normalized_next.
    apply keeps_bind;
      [exact history_stays_fit_trans | exact Hnext | intros x].
    apply keeps_lift. exact history_stays_fit_refl. }
  destruct c; cbn [after].
  - apply Hnext.
  - apply (keeps_loop _ history_stays_fit_refl history_stays_fit_trans),
      Hnext.
  - apply Hnorm.
  - apply (keeps_loop _ history_stays_fit_refl history_stays_fit_trans),
      Hnorm.
  - apply same_history_stays_fit, history_kept_get_entropy_estimate.
  - apply same_history_stays_fit, history_kept_collect_initial_entropy.
  - apply same_history_stays_fit, history_kept_get_audio_status.
  - apply same_history_stays_fit, history_kept_get_entropy_quality_metrics.
  - apply same_history_stays_fit, history_kept_cleanup.
  - apply same_history_stays_fit, history_kept_collector_iteration.
Qed.

Lemma after_all_keeps_history_fit cs :
  forall m, history_fits m -> history_fits (after_all env cs m).
Proof.
  unfold after_all.
  induction cs as [|c cs IH]; intros m Hm; cbn [fold_left]; [exact Hm|].
  apply IH, after_keeps_history_fit, Hm.
Qed.
End History.

(** C10. A call of [next] extends the history with the first 100 bytes
    of the entropy it collected (the input of the conditioner, not its
    output), so the history grows by at most 100 entries; a call that
    raises leaves it alone; and from construction on, through any
    sequence of calls and of turns of the background thread, the history
    never holds more than 10000 entries. *)
Theorem history_append_bounded :
  (forall env m entropy m1,
      _collect_additional_entropy env m = (Ok entropy, m1) ->
      entropy_history (self (snd (next env m)))
      = Deque.extend 10000 (entropy_history (self m)) (take 100 entropy)
      /\ (length (entropy_history (self (snd (next env m))))
          <= length (entropy_history (self m)) + 100)%nat)
  /\ (forall env m e m1,
         _collect_additional_entropy env m = (Raise e, m1) ->
         entropy_history (self (snd (next env m)))
         = entropy_history (self m))
  /\ (forall env sample_rate chunk_size w cs,
         Z.of_nat (length (entropy_history (self
           (after_all env cs (snd (__init__ env sample_rate chunk_size w))))))
         <= 10000).
Proof.
  split; [|split].
  - intros env m entropy m1 E.
    rewrite (next_history env m entropy m1 E). split; [reflexivity|].
    pose proof (deque_extend_grow 10000 (take 100 entropy)
                  (entropy_history (self m))) as H.
    rewrite length_take in H. lia.
  - intros env m e m1 E. exact (next_history_raise env m e m1 E).
  - intros env sample_rate chunk_size w cs.
    apply after_all_keeps_history_fit. unfold history_fits.
    rewrite history_after_init. simpl. lia.
Qed.

Lemma history_append_bounded_witness :
  exists entropy,
    entropy_history (self (snd (next fallback_host used_generator)))
    = Deque.extend 10000 [1; 2; 3] (take 100 entropy)
    /\ (length (entropy_history (self (snd (next fallback_host used_generator))))
        <= 3 + 100)%nat.
Proof.
  destruct history_append_bounded as (Hnext & _ & _).
  eexists. eapply (Hnext fallback_host used_generator).
  vm_compute. reflexivity.
Defined.

(* ================================================================== *)
(** ** Seeding of the pool *)
(* ================================================================== *)

Lemma stream_unusable_state m : snd (stream_unusable m) = m.
Proof.
  unfold stream_unusable, stream_is_stopped, bind, gets.
  destruct (stream (self m)); [|reflexivity].
  destruct (line (world m)); reflexivity.
Qed.

Lemma stream_unusable_none m :
  stream (self m) = None -> stream_unusable m = (Ok true, m).
Proof.
  intros H. unfold stream_unusable, bind, gets. now rewrite H.
Qed.

Section Seeding.
Variable env : Environment.

Lemma seed_from_microphone_inv unusable m m1 :
  seed_from_microphone env unusable m = (Ok tt, m1) ->
  exists mic,
    entropy_pool (self m1) = entropy_pool (self m) ++ mic
    /\ (unusable = true -> mic = []).
Proof.
  unfold seed_from_microphone. destruct unusable.
  - intros [= <-]. exists []. now rewrite app_nil_r.
  - unfold bind.
    pose proof (frame_collect_microphone_entropy entropy_pool env m) as Hp.
    destruct (_collect_microphone_entropy env m) as [[mic|e] m0];
      [|discriminate].
    unfold same_on in Hp. cbn [snd] in Hp.
    intros [= <-]. exists mic. cbn. rewrite Hp. split; [reflexivity|].
    discriminate.
Qed.

(** [_collect_initial_entropy] appends to the pool: the microphone
    sample if any, 32 bytes of system entropy, the timestamp on 8 bytes
    and the process identifier on 4. *)
Lemma collect_initial_entropy_inv m m' :
  _collect_initial_entropy env m = (Ok tt, m') ->
  exists mic sys stamp ident,
    entropy_pool (self m')
    = entropy_pool (self m) ++ mic ++ sys ++ stamp ++ ident
    /\ length sys = 32%nat /\ length stamp = 8%nat /\ length ident = 4%nat
    /\ (stream (self m) = None -> mic = []).
Proof.
  unfold _collect_initial_entropy. intros H.
  unfold bind at 1 in H.
  pose proof (stream_unusable_state m) as Hs.
  destruct (stream_unusable m) as [[b|e] m0] eqn:Eu; [|discriminate].
  cbn [snd] in Hs. subst m0.
  unfold bind at 1 in H.
  fold (seed_from_microphone env b) in H.
  destruct (seed_from_microphone env b m) as [[[]|e] m1] eqn:E1; [|discriminate].
  destruct (seed_from_microphone_inv b m m1 E1) as (mic & Hmic & Hnone).
  unfold bind at 1 in H. cbn [os_urandom] in H.
  unfold bind at 1 in H. cbn [on_self modify] in H.
  unfold bind at 1 in H. cbn [time_ns] in H.
  unfold bind at 1 in H. unfold lift at 1 in H.
  destruct (struct_pack (byteorder env) 8 _) as [stamp|] eqn:Estamp;
    [|discriminate].
  unfold bind at 1 in H. cbn [on_self modify] in H.
  unfold bind at 1 in H. cbn [os_getpid ret] in H.
  unfold bind at 1 in H. unfold lift at 1 in H.
  destruct (struct_pack (byteorder env) 4 _) as [ident|] eqn:Eident;
    [|discriminate].
  cbn [on_self modify] in H.
  apply pair_equal_spec in H as [_ <-].
  exists mic, (map (fun i => urandom_src env i mod 256)
                (seq (drawn (world m1)) 32)), stamp, ident.
  cbn [self world entropy_pool set_entropy_pool].
  rewrite Hmic, <- !app_assoc.
  split; [reflexivity|].
  split; [now rewrite length_map, length_seq|].
  split; [exact (struct_pack_length _ _ _ _ Estamp)|].
  split; [exact (struct_pack_length _ _ _ _ Eident)|].
  intros Hnone'. apply Hnone.
  rewrite (stream_unusable_none m Hnone') in Eu. congruence.
Qed.

Lemma collect_initial_entropy_returns m :
  steady_clock env -> pid_fits env -> stream_open m ->
  exists m', _collect_initial_entropy env m = (Ok tt, m').
Proof.
  intros Hclock Hpid Hopen. unfold _collect_initial_entropy.
  destruct (stream_unusable_returns m Hopen) as (b & Eb).
  rewrite (bind_Ok _ _ _ _ _ Eb).
  fold (seed_from_microphone env b).
  assert (H1 : exists m1, seed_from_microphone env b m = (Ok tt, m1)).
  { unfold seed_from_microphone. destruct b; [eexists; reflexivity|].
    destruct (collect_microphone_entropy_returns env m Hopen)
      as (mic & m0 & E0).
    rewrite (bind_Ok _ _ _ _ _ E0). eexists. reflexivity. }
  destruct H1 as (m1 & E1). rewrite (bind_Ok _ _ _ _ _ E1).
  unfold bind at 1. cbn [os_urandom].
  unfold bind at 1. cbn [on_self modify].
  unfold bind at 1. cbn [time_ns].
  unfold bind at 1, lift at 1.
  rewrite struct_pack_Ok by (apply (clock_fits env Hclock)).
  unfold bind at 1. cbn [on_self modify].
  unfold bind at 1. cbn [os_getpid ret].
  unfold bind at 1, lift at 1.
  rewrite struct_pack_Ok by exact Hpid.
  eexists. reflexivity.
Qed.

Lemma acquire_device_blank sample_rate chunk_size w :
  exists m0,
    acquire_device env {| self := blank sample_rate chunk_size; world := w |}
    = (Ok tt, m0)
    /\ entropy_pool (self m0) = []
    /\ (stream (self m0) = None \/ line (world m0) = Active)
    /\ (AUDIO_AVAILABLE env = false -> stream (self m0) = None).
Proof.
  unfold acquire_device, _setup_audio, _start_continuous_collection,
    pyaudio_PyAudio, audio_open.
  destruct (AUDIO_AVAILABLE env).
  - destruct (pa_init_fails env); [|destruct (pa_open_fails env)];
      eexists; (split; [reflexivity|]); cbn; auto.
    split; [reflexivity|]. split; [right; reflexivity | discriminate].
  - eexists. split; [reflexivity|]. cbn. auto.
Qed.

Lemma init_unfold sample_rate chunk_size w :
  __init__ env sample_rate chunk_size w
  = (acquire_device env ;;; _collect_initial_entropy env)
      {| self := blank sample_rate chunk_size; world := w |}.
Proof. reflexivity. Qed.
End Seeding.

(** C1, as the code has it.  The pool has 24 bytes after every call of
    [next] that returns, and only then.  Construction and
    [refresh_entropy] neither hash nor truncate: they append the seed (an
    optional microphone sample, 32 bytes of system entropy, 8 bytes of
    timestamp, 4 bytes of process identifier) to the pool, which
    therefore holds at least 44 bytes after construction (exactly 44
    without the audio library) and grows by at least 44 bytes on every
    refresh. *)
Theorem pool_seeded_by_appending :
  (forall env sample_rate chunk_size w m',
      __init__ env sample_rate chunk_size w = (Ok tt, m') ->
      (44 <= length (entropy_pool (self m')))%nat
      /\ (AUDIO_AVAILABLE env = false ->
          length (entropy_pool (self m')) = 44%nat))
  /\ (forall env m m',
         refresh_entropy env m = (Ok tt, m') ->
         exists seed,
           entropy_pool (self m') = entropy_pool (self m) ++ seed
           /\ (44 <= length seed)%nat)
  /\ (forall env m out m',
         next env m = (Ok out, m') ->
         length (entropy_pool (self m')) = 24%nat)
  /\ (forall env sample_rate chunk_size w,
         steady_clock env -> pid_fits env ->
         exists m', __init__ env sample_rate chunk_size w = (Ok tt, m')).
Proof.
  split; [|split; [|split]].
  - intros env sample_rate chunk_size w m'. rewrite init_unfold.
    destruct (acquire_device_blank env sample_rate chunk_size w)
      as (m0 & E0 & Hpool & _ & Hnone).
    rewrite (bind_Ok _ _ _ _ _ E0). intros H.
    destruct (collect_initial_entropy_inv env m0 m' H)
      as (mic & sys & stamp & ident & Hp & Hsys & Hstamp & Hident & Hmic).
    rewrite Hp, Hpool, !length_app, Hsys, Hstamp, Hident. cbn [length].
    split; [lia|]. intros Hno. rewrite (Hmic (Hnone Hno)). reflexivity.
  - intros env m m' H. unfold refresh_entropy in H.
    destruct (collect_initial_entropy_inv env m m' H)
      as (mic & sys & stamp & ident & Hp & Hsys & Hstamp & Hident & _).
    exists (mic ++ sys ++ stamp ++ ident). split; [exact Hp|].
    rewrite !length_app, Hsys, Hstamp, Hident. lia.
  - intros env m out m' H.
    exact (proj2 (next_output_fits env m out m' H)).
  - intros env sample_rate chunk_size w Hclock Hpid. rewrite init_unfold.
    destruct (acquire_device_blank env sample_rate chunk_size w)
      as (m0 & E0 & _ & Hopen & _).
    rewrite (bind_Ok _ _ _ _ _ E0).
    apply collect_initial_entropy_returns; [assumption..|].
    destruct Hopen as [H | H]; [left | right; left]; exact H.
Qed.

Lemma fallback_host_pid_fits : pid_fits fallback_host.
Proof.
  unfold pid_fits. cbn [pid fallback_host].
  change (2 ^ 32) with 4294967296. lia.
Defined.

Lemma pool_seeded_by_appending_witness :
  exists m',
    __init__ fallback_host 44100 1024 boot = (Ok tt, m')
    /\ length (entropy_pool (self m')) = 44%nat.
Proof.
  destruct pool_seeded_by_appending as (Hinit & _ & _ & Hreturns).
  destruct (Hreturns fallback_host 44100 1024 boot
              fallback_host_steady fallback_host_pid_fits) as (m' & E).
  exists m'. split; [exact E|].
  destruct (Hinit fallback_host 44100 1024 boot m' E) as [_ Hlen].
  apply Hlen. reflexivity.
Defined.

(** C1, as the specification has it, fails: a generator built without
    the audio library holds a pool of 44 bytes, and a refresh appends 44
    more, leaving the first 44 in place. *)
Lemma pool_not_fixed_at_24 :
  exists m' m'',
    __init__ fallback_host 44100 1024 boot = (Ok tt, m')
    /\ length (entropy_pool (self m')) = 44%nat
    /\ length (entropy_pool (self m')) <> 24%nat
    /\ refresh_entropy fallback_host m' = (Ok tt, m'')
    /\ length (entropy_pool (self m'')) = 88%nat
    /\ take 44 (entropy_pool (self m'')) = entropy_pool (self m').
Proof.
  eexists _, _.
  split; [vm_compute; reflexivity|].
  split; [vm_compute; reflexivity|].
  split; [vm_compute; discriminate|].
  split; [vm_compute; reflexivity|].
  split; vm_compute; reflexivity.
Qed.

(* ================================================================== *)
(** ** Normalised output *)
(* ================================================================== *)

(** Division against the interpreter: [929530096 / 0xFFFFFFFF],
    [1 / 3], a tie that goes to the even significand, a quotient below
    the normal range, and one beyond the largest double. *)
Example true_divide_vectors :
  (exists q, normalize 929530096 = Ok (Finite q)
             /\ (q == 121835368771279 # 562949953421312)%Q)
  /\ (exists q, Float.true_divide 1 3 = Ok (Finite q)
                /\ (q == 6004799503160661 # 18014398509481984)%Q)
  /\ (exists q, Float.true_divide (2 ^ 53 + 1) 1 = Ok (Finite q)
                /\ (q == 9007199254740992 # 1)%Q)
  /\ (exists q, Float.true_divide 3 (Z.to_pos (2 ^ 1075)) = Ok (Finite q)
                /\ (q == 1 # Z.to_pos (2 ^ 1073))%Q)
  /\ Float.true_divide (2 ^ 1024) 1 = Raise OverflowError.
Proof.
  repeat split; try (eexists; split; [vm_compute; reflexivity|]);
    vm_compute; reflexivity.
Qed.

Lemma round_half_even_near a b :
  0 < b -> - b <= 2 * (Float.round_half_even a b * b - a) <= b.
Proof.
  intros Hb. unfold Float.round_half_even.
  pose proof (Z.div_mod a b ltac:(lia)) as Hd.
  pose proof (Z.mod_pos_bound a b Hb) as Hr.
  destruct (2 * (a mod b) <? b) eqn:E1; [apply Z.ltb_lt in E1; nia|].
  apply Z.ltb_ge in E1.
  destruct (b <? 2 * (a mod b)) eqn:E2; [apply Z.ltb_lt in E2; nia|].
  apply Z.ltb_ge in E2.
  destruct (Z.even (a / b)); nia.
Qed.

(** Scaled by the last place, a proper fraction lies in one binade. *)
Lemma last_place_binade a b :
  0 < a <= b -> b < 2 ^ 54 ->
  exists k,
    Float.last_place a b = - k /\ 52 <= k <= 106
    /\ 2 ^ 52 * b <= a * 2 ^ k < 2 ^ 53 * b
    /\ (a < b -> 53 <= k) /\ (a = b -> k = 52).
Proof.
  intros Ha Hb. unfold Float.last_place.
  assert (H0b : 0 < b) by lia.
  pose proof (Z.log2_spec a ltac:(lia)) as [HA1 HA2].
  pose proof (Z.log2_spec b H0b) as [HB1 HB2].
  pose proof (Z.log2_nonneg a) as Hla.
  pose proof (Z.log2_le_mono a b ltac:(lia)) as Hle.
  assert (Hlb : Z.log2 b < 54) by (apply Z.log2_lt_pow2; lia).
  set (la := Z.log2 a) in *. set (lb := Z.log2 b) in *.
  rewrite Z.pow_succ_r in HA2, HB2 by lia.
  assert (HA0 : 0 < 2 ^ la) by (apply Z.pow_pos_nonneg; lia).
  assert (HB0 : 0 < 2 ^ lb) by (apply Z.pow_pos_nonneg; lia).
  destruct (b * 2 ^ la <=? a * 2 ^ lb) eqn:E.
  - apply Z.leb_le in E. exists (52 + lb - la).
    rewrite Z.max_r by lia.
    split; [lia|]. split; [lia|].
    assert (HP0 : 0 < 2 ^ (52 + lb - la)) by (apply Z.pow_pos_nonneg; lia).
    assert (HP : 2 ^ (52 + lb - la) * 2 ^ la = 2 ^ 52 * 2 ^ lb).
    { rewrite <- !Z.pow_add_r by lia. f_equal. lia. }
    set (A := 2 ^ la) in *. set (B := 2 ^ lb) in *.
    set (P := 2 ^ (52 + lb - la)) in *.
    assert (Hc : 0 < 2 ^ 52) by (apply Z.pow_pos_nonneg; lia).
    change (2 ^ 53) with (2 * 2 ^ 52). set (c := 2 ^ 52) in *.
    split; [split|split].
    + apply (Z.mul_le_mono_pos_r _ _ A HA0).
      replace (a * P * A) with (a * (P * A)) by ring. rewrite HP. nia.
    + nia.
    + intros Hab. destruct (Z.eq_dec la lb) as [Heq|]; [|lia].
      exfalso. unfold A, B in E. rewrite Heq in E. fold B in E. nia.
    + intros Hab. subst b.
      assert (la = lb) by reflexivity. lia.
  - apply Z.leb_gt in E. exists (53 + lb - la).
    rewrite Z.max_r by lia.
    split; [lia|]. split; [lia|].
    assert (HP0 : 0 < 2 ^ (53 + lb - la)) by (apply Z.pow_pos_nonneg; lia).
    assert (HP : 2 ^ (53 + lb - la) * 2 ^ la = 2 * 2 ^ 52 * 2 ^ lb).
    { change (2 * 2 ^ 52) with (2 ^ 53).
      rewrite <- !Z.pow_add_r by lia. f_equal. lia. }
    set (A := 2 ^ la) in *. set (B := 2 ^ lb) in *.
    set (P := 2 ^ (53 + lb - la)) in *.
    assert (Hc : 0 < 2 ^ 52) by (apply Z.pow_pos_nonneg; lia).
    change (2 ^ 53) with (2 * 2 ^ 52). set (c := 2 ^ 52) in *.
    split; [split|split].
    + apply (Z.mul_le_mono_pos_r _ _ A HA0).
      replace (a * P * A) with (a * (P * A)) by ring. rewrite HP. nia.
    + apply (Z.mul_lt_mono_pos_r A _ _ HA0).
      replace (a * P * A) with (a * (P * A)) by ring. rewrite HP. nia.
    + lia.
    + intros Hab. subst b. exfalso.
      unfold A, B, la, lb in E. lia.
Qed.

(** The double nearest to a proper fraction [a / b]: a significand of 53
    bits, the integer nearest to the scaled quotient; below 1 unless
    [a = b]. *)
Lemma nearest_fraction a b :
  0 < a <= b -> b < 2 ^ 54 ->
  exists m k,
    Float.nearest a b = Ok (m # Z.to_pos (2 ^ k))
    /\ 52 <= k <= 106
    /\ 2 ^ 52 <= m <= 2 ^ 53
    /\ - b <= 2 * (m * b - a * 2 ^ k) <= b
    /\ (a < b -> 53 <= k /\ m < 2 ^ k)
    /\ (a = b -> m = 2 ^ k).
Proof.
  intros Ha Hb.
  destruct (last_place_binade a b Ha Hb) as (k & He & Hk & Hbin & Hlt & Heq).
  unfold Float.nearest. rewrite He.
  replace (0 <=? - k) with false by (symmetry; apply Z.leb_gt; lia).
  rewrite Z.opp_involutive.
  pose proof (round_half_even_near (a * 2 ^ k) b ltac:(lia)) as Hm.
  set (m := Float.round_half_even (a * 2 ^ k) b) in *.
  assert (HP0 : 0 < 2 ^ k) by (apply Z.pow_pos_nonneg; lia).
  exists m, k. split; [reflexivity|]. split; [exact Hk|].
  set (s := a * 2 ^ k) in *.
  assert (Hc : 0 < 2 ^ 52) by (apply Z.pow_pos_nonneg; lia).
  change (2 ^ 53) with (2 * 2 ^ 52) in *. set (c := 2 ^ 52) in *.
  split; [split; nia|]. split; [exact Hm|].
  split.
  - intros Hab. pose proof (Hlt Hab) as Hk53. split; [exact Hk53|].
    assert (H54 : 2 ^ 54 <= 2 * 2 ^ k).
    { rewrite <- Z.pow_succ_r by lia. apply Z.pow_le_mono_r; lia. }
    unfold s in *. set (P := 2 ^ k) in *.
    destruct (Z.lt_ge_cases m P) as [|Hge]; [assumption|exfalso].
    assert (2 * P * (b - a) <= b) by nia.
    nia.
  - intros Hab. specialize (Heq Hab). subst b. unfold s in *.
    set (P := 2 ^ k) in *. nia.
Qed.

Local Open Scope Q_scope.

(** What the division makes of a 32-bit value [x]: a double [q], with a
    significand of at most 53 bits that is the integer nearest to the
    scaled quotient, so within [2 ^ -54] of [x / 0xFFFFFFFF]; it lies in
    the closed interval from 0 to 1 and reaches 1 for [0xFFFFFFFF]
    only. *)
Lemma normalize_range (x : Z) :
  (0 <= x < 2 ^ 32)%Z ->
  exists q,
    normalize x = Ok (Finite q)
    /\ (exists mant k,
           (0 <= mant <= 2 ^ 53)%Z /\ (0 <= k)%Z
           /\ q = mant # Z.to_pos (2 ^ k)
           /\ (- 4294967295 <= 2 * (mant * 4294967295 - x * 2 ^ k)
               <= 4294967295)%Z)
    /\ Qabs (q - (x # 4294967295)) <= 1 # 18014398509481984
    /\ 0 <= q /\ q <= 1
    /\ (q < 1 <-> x <> 4294967295%Z)
    /\ (q == 1 <-> x = 4294967295%Z).
Proof.
  change (2 ^ 32)%Z with 4294967296%Z. intros Hx.
  unfold normalize, Float.true_divide.
  destruct x as [|p|p]; [| |lia].
  - exists 0. split; [reflexivity|].
    split; [exists 0%Z, 0%Z; repeat split; try reflexivity; lia|].
    split; [discriminate|]. split; [discriminate|]. split; [discriminate|].
    split; split; try discriminate; try reflexivity.
  - destruct (nearest_fraction (Z.pos p) 4294967295 ltac:(lia)
                ltac:(reflexivity))
      as (m & k & E & Hk & Hm & Hnear & Hlt & Heq).
    rewrite E. exists (m # Z.to_pos (2 ^ k)). split; [reflexivity|].
    assert (HP0 : (0 < 2 ^ k)%Z) by (apply Z.pow_pos_nonneg; lia).
    assert (Hc : (0 < 2 ^ 52)%Z) by (apply Z.pow_pos_nonneg; lia).
    split.
    { exists m, k. split; [lia|]. split; [lia|].
      split; [reflexivity | exact Hnear]. }
    assert (Hclose : Qabs ((m # Z.to_pos (2 ^ k)) - (Z.pos p # 4294967295))
                     <= 1 # 18014398509481984).
    { apply Qabs_Qle_condition.
      unfold Qle, Qminus, Qplus, Qopp. cbn [Qnum Qden].
      rewrite Pos2Z.inj_mul, Z2Pos.id by exact HP0.
      destruct (Z.eq_dec (Z.pos p) 4294967295%Z) as [Hmax | Hne].
      - rewrite (Heq Hmax), Hmax. split; lia.
      - destruct (Hlt ltac:(lia)) as [Hk53 _].
        assert (H53 : (2 ^ 53 <= 2 ^ k)%Z) by (apply Z.pow_le_mono_r; lia).
        change (2 ^ 53)%Z with 9007199254740992%Z in H53.
        set (P := (2 ^ k)%Z) in *. split; nia. }
    split; [exact Hclose|].
    unfold Qle, Qlt, Qeq. cbn [Qnum Qden].
    rewrite Z2Pos.id by exact HP0.
    set (P := (2 ^ k)%Z) in *.
    split; [lia|].
    destruct (Z.eq_dec (Z.pos p) 4294967295%Z) as [Hmax | Hne].
    + specialize (Heq Hmax). repeat split; intros; lia.
    + destruct (Hlt ltac:(lia)) as [_ HmP].
      repeat split; intros; lia.
Qed.

Local Close Scope Q_scope.

(** C4, as the code has it.  [normalized_next] returns the output of
    [next] divided by 0xFFFFFFFF in floating point: the double nearest
    to the quotient, within [2 ^ -54] of it.  That double lies in the
    closed interval [0, 1]: it is below 1 for every output except
    0xFFFFFFFF itself, for which it is exactly 1.  The call returns
    whenever [next] does. *)
Theorem normalized_next_closed_interval :
  (forall env m,
      normalized_next env m
      = match next env m with
        | (Ok x, m') => (Float.true_divide x 4294967295, m')
        | (Raise e, m') => (Raise e, m')
        end)
  /\ (forall env m out m',
         next env m = (Ok out, m') ->
         exists q,
           normalized_next env m = (Ok (Finite q), m')
           /\ (exists mant k,
                  0 <= mant <= 2 ^ 53 /\ 0 <= k
                  /\ q = (mant # Z.to_pos (2 ^ k))%Q
                  /\ - 4294967295
                     <= 2 * (mant * 4294967295 - out * 2 ^ k)
                     <= 4294967295)
           /\ (Qabs (q - (out # 4294967295)) <= 1 # 18014398509481984)%Q
           /\ (0 <= q)%Q /\ (q <= 1)%Q
           /\ ((q < 1)%Q <-> out <> 4294967295)
           /\ ((q == 1)%Q <-> out = 4294967295)).
Proof.
  assert (Hdef : forall env m,
             normalized_next env m
             = match next env m with
               | (Ok x, m') => (Float.true_divide x 4294967295, m')
               | (Raise e, m') => (Raise e, m')
               end).
  { intros env m. unfold normalized_next, bind, lift, normalize.
    destruct (next env m) as [[x|e] m']; reflexivity. }
  split; [exact Hdef|].
  intros env m out m' H.
  destruct (next_output_fits env m out m' H) as [Hout _].
  destruct (normalize_range out Hout) as (q & E & Hq).
  exists q. split; [|exact Hq].
  rewrite Hdef, H. unfold normalize in E. now rewrite E.
Qed.

Lemma normalized_next_closed_interval_witness :
  next fallback_host fallback_generator
  = (Ok 929530096, snd (next fallback_host fallback_generator))
  /\ exists q,
       normalized_next fallback_host fallback_generator
       = (Ok (Finite q), snd (next fallback_host fallback_generator))
       /\ (q < 1)%Q.
Proof.
  assert (E : next fallback_host fallback_generator
              = (Ok 929530096, snd (next fallback_host fallback_generator)))
    by (vm_compute; reflexivity).
  split; [exact E|].
  destruct normalized_next_closed_interval as [_ Hrange].
  destruct (Hrange fallback_host fallback_generator 929530096
              (snd (next fallback_host fallback_generator)) E)
    as (q & En & _ & _ & _ & _ & Hlt & _).
  exists q. split; [exact En|]. apply Hlt. discriminate.
Defined.

(** C4, as the specification has it, fails at the largest 32-bit output:
    0xFFFFFFFF / 0xFFFFFFFF is the double 1, which is not below 1. *)
Lemma normalize_reaches_one :
  (0 <= 4294967295 < 2 ^ 32)
  /\ exists q, normalize 4294967295 = Ok (Finite q)
               /\ (q == 1)%Q /\ ~ (q < 1)%Q.
Proof.
  split; [change (2 ^ 32) with 4294967296; lia|].
  eexists. split; [vm_compute; reflexivity|].
  split; [reflexivity|]. intros H. discriminate H.
Qed.

(* ================================================================== *)
(** ** Device trouble *)
(* ================================================================== *)

Section DeviceTrouble.
Variable env : Environment.

Lemma urandom_at_length m n : length (urandom_at env m n) = n.
Proof. unfold urandom_at. now rewrite length_map, length_seq. Qed.

(** A failing read is answered by 32 bytes of system entropy. *)
Lemma failed_read_falls_back m :
  stream (self m) = Some the_stream ->
  line (world m) = Active ->
  mic_fault env (reads (world m)) = true ->
  exists m',
    _collect_microphone_entropy env m = (Ok (urandom_at env m 32), m').
Proof.
  intros Hs Hl Hf.
  unfold _collect_microphone_entropy, stream_unusable, stream_is_stopped.
  unfold bind at 1. unfold bind at 1. unfold gets at 1. rewrite Hs.
  unfold bind at 1. unfold gets at 1. rewrite Hl. unfold ret at 1.
  unfold try_except. unfold bind at 1. unfold gets at 1.
  unfold bind at 1. unfold stream_read.
  destruct (chunk_size (self m) / 2 <? 0).
  - eexists. reflexivity.
  - rewrite Hl, Hf. eexists. reflexivity.
Qed.

(** The entropy that [next] collects: what was queued, then the fresh
    sample, then the rest. *)
Lemma collect_additional_entropy_shape m fresh m1 :
  steady_clock env ->
  _collect_microphone_entropy env
    {| self := set_entropy_queue [] (self m); world := world m |}
  = (Ok fresh, m1) ->
  exists rest m',
    _collect_additional_entropy env m
    = (Ok (concat (entropy_queue (self m)) ++ fresh ++ rest), m').
Proof.
  intros Hclock E1. unfold _collect_additional_entropy.
  unfold bind at 1, gets. unfold bind at 1, on_self, modify.
  rewrite (bind_Ok _ _ _ _ _ E1).
  unfold bind at 1. cbn [os_urandom].
  set (m2 := {| self := self m1; world := _ |}).
  destruct (loop_returns _ fits64 20 (jitter_getpid_returns env Hclock) m2)
    as (js & m3 & E3 & Hjs).
  rewrite (bind_Ok _ _ _ _ _ E3).
  unfold bind at 1, lift. rewrite (np_array_uint64_Ok _ Hjs).
  unfold bind, time_ns, lift, ret. cbn -[struct_pack Z.pow].
  rewrite struct_pack_Ok by (apply (clock_step_fits env Hclock)).
  match goal with
  | |- exists rest m', (Ok ((((_ ++ _) ++ ?s) ++ ?l) ++ ?p), ?mm) = _ =>
      exists (s ++ l ++ p), mm
  end.
  now rewrite <- !app_assoc.
Qed.
End DeviceTrouble.

(** C7, as the code has it.  When the read of the device inside
    [_collect_microphone_entropy] raises, the exception is caught and 32
    bytes of system entropy (a fixed size, not the size of the sample
    that the read would have led to) stand in for the fresh sample;
    [next] takes them as its fresh sample and returns, provided the clock
    is steady. *)
Theorem device_read_error_falls_back env m :
  stream (self m) = Some the_stream ->
  line (world m) = Active ->
  mic_fault env (reads (world m)) = true ->
  (exists m',
      _collect_microphone_entropy env m = (Ok (urandom_at env m 32), m'))
  /\ length (urandom_at env m 32) = 32%nat
  /\ (steady_clock env ->
      exists rest m1 out m',
        _collect_additional_entropy env m
        = (Ok (concat (entropy_queue (self m)) ++ urandom_at env m 32 ++ rest),
           m1)
        /\ next env m = (Ok out, m')).
Proof.
  intros Hs Hl Hf.
  split; [exact (failed_read_falls_back env m Hs Hl Hf)|].
  split; [apply urandom_at_length|].
  intros Hclock.
  destruct (failed_read_falls_back env
              {| self := set_entropy_queue [] (self m); world := world m |}
              Hs Hl Hf) as (m0 & E0).
  destruct (collect_additional_entropy_shape env m _ m0 Hclock E0)
    as (rest & m1 & E1).
  exists rest, m1.
  destruct (next_returns env Hclock m) as (out & m' & E).
  { right. left. exact Hl. }
  exists out, m'. split; [exact E1 | exact E].
Qed.

(** The generator built on [studio_host] is also the one built on
    [flaky_host], whose reads fail from the second one on. *)
Lemma flaky_generator_is_studio_generator :
  __init__ flaky_host 44100 1024 boot = (Ok tt, studio_generator).
Proof. vm_compute. reflexivity. Defined.

Lemma device_read_error_falls_back_witness :
  exists out m', next flaky_host studio_generator = (Ok out, m').
Proof.
  destruct (device_read_error_falls_back flaky_host studio_generator)
    as (_ & _ & Hnext).
  - vm_compute. reflexivity.
  - vm_compute. reflexivity.
  - vm_compute. reflexivity.
  - destruct Hnext as (rest & m1 & out & m' & _ & E).
    + intros i. cbn [clock flaky_host fallback_host].
      change (2 ^ 64) with 18446744073709551616. lia.
    + exists out, m'. exact E.
Defined.

(** C7, as the specification has it, fails on the size of the
    substitute: on a working microphone the generator with the default
    chunk size extracts a sample of 955 bytes; when the same read fails,
    32 bytes stand in for it. *)
Lemma substitute_is_not_sample_sized :
  exists sample m1 substitute m2,
    _collect_microphone_entropy studio_host studio_generator
    = (Ok sample, m1)
    /\ _collect_microphone_entropy flaky_host studio_generator
       = (Ok substitute, m2)
    /\ length sample = 955%nat
    /\ length substitute = 32%nat
    /\ length substitute <> length sample.
Proof.
  eexists _, _, _, _.
  split; [vm_compute; reflexivity|].
  split; [vm_compute; reflexivity|].
  split; [vm_compute; reflexivity|].
  split; [vm_compute; reflexivity|].
  vm_compute. discriminate.
Qed.

(* ================================================================== *)
(** ** Teardown *)
(* ================================================================== *)

(** C8. [cleanup] returns without error from every state, also one in
    which no stream or audio handle was ever obtained (it then leaves
    the device library alone); a second call right after the first
    returns without error as well and changes nothing; after them the
    collecting flag is cleared and the stream and the audio handle that
    the generator holds are closed and terminated. *)
Theorem cleanup_idempotent m :
  fst (cleanup m) = Ok tt
  /\ cleanup (snd (cleanup m)) = (Ok tt, snd (cleanup m))
  /\ collecting (self (snd (cleanup m))) = false
  /\ released (snd (cleanup m)) = true
  /\ (stream (self m) = None -> audio (self m) = None ->
      world (snd (cleanup m)) = world m).
Proof.
  destruct m as [[sr cs pool queue history au st col th] [t d f r p l]].
  destruct au as [[]|], st as [[]|], th as [[]|], l;
    repeat split; try reflexivity; discriminate.
Qed.

Lemma cleanup_idempotent_witness :
  cleanup (snd (cleanup studio_generator))
  = (Ok tt, snd (cleanup studio_generator))
  /\ line (world (snd (cleanup studio_generator))) = Closed
  /\ pa (world (snd (cleanup studio_generator))) = PaTerminated
  /\ world (snd (cleanup fallback_generator)) = world fallback_generator.
Proof.
  destruct (cleanup_idempotent studio_generator) as (_ & Htwice & _ & _ & _).
  destruct (cleanup_idempotent fallback_generator) as (_ & _ & _ & _ & Hnone).
  split; [exact Htwice|].
  split; [vm_compute; reflexivity|].
  split; [vm_compute; reflexivity|].
  apply Hnone; vm_compute; reflexivity.
Defined.

(* ================================================================== *)
(** ** Quality metrics *)
(* ================================================================== *)

(** C9. With fewer than 100 bytes of history,
    [get_entropy_quality_metrics] returns the dictionary whose only key
    is "status", with value "insufficient_data": no statistic is in it.
    With 100 bytes or more it returns the seven statistics and no
    "status". *)
Theorem quality_metrics_need_history env m :
  ((length (entropy_history (self m)) < 100)%nat ->
   exists d : gmap string pyval,
     get_entropy_quality_metrics env m = (Ok d, m)
     /\ d = {[ "status"%string := PStr "insufficient_data" ]}
     /\ dom d = ({[ "status"%string ]} : gset string)
     /\ (forall k, k <> "status"%string -> d !! k = None))
  /\ ((100 <= length (entropy_history (self m)))%nat ->
      let data := astype_uint8 (entropy_history (self m)) in
      let unique_bytes := size (list_to_set data : gset Z) in
      exists d : gmap string pyval,
        get_entropy_quality_metrics env m = (Ok d, m)
        /\ dom d = ({[ "sample_size"%string; "mean"%string; "std"%string;
                       "entropy_estimate"%string; "unique_bytes"%string;
                       "serial_correlation"%string; "queue_size"%string ]}
                    : gset string)
        /\ d !! "status"%string = None
        /\ d !! "sample_size"%string
           = Some (PInt (Z.of_nat (length (entropy_history (self m)))))
        /\ d !! "mean"%string = Some (PFloat (np_mean env data))
        /\ d !! "std"%string = Some (PFloat (np_std env data))
        /\ d !! "entropy_estimate"%string
           = Some (PFloat (Finite (Z.of_nat unique_bytes # 256)))
        /\ d !! "unique_bytes"%string = Some (PInt (Z.of_nat unique_bytes))
        /\ d !! "serial_correlation"%string
           = Some (PFloat (np_corrcoef env (removelast data) (tail data)))
        /\ d !! "queue_size"%string
           = Some (PInt (Z.of_nat (length (entropy_queue (self m)))))).
Proof.
  split.
  - intros Hlt. unfold get_entropy_quality_metrics, bind, gets, ret.
    replace (length (entropy_history (self m)) <? 100)%nat with true
      by (symmetry; apply Nat.ltb_lt; exact Hlt).
    eexists. split; [reflexivity|]. split; [reflexivity|].
    split; [apply dom_singleton_L|].
    intros k Hk. apply lookup_singleton_ne. congruence.
  - intros Hge data unique_bytes.
    unfold get_entropy_quality_metrics, bind, gets, ret.
    replace (length (entropy_history (self m)) <? 100)%nat with false
      by (symmetry; apply Nat.ltb_ge; exact Hge).
    fold data. fold unique_bytes.
    assert (Hlen : length data = length (entropy_history (self m)))
      by apply length_map.
    replace (1 <? length data)%nat with true
      by (symmetry; apply Nat.ltb_lt; lia).
    rewrite Hlen.
    eexists. split; [reflexivity|].
    split; [rewrite !dom_insert_L, dom_empty_L; set_solver|].
    repeat split; by simplify_map_eq.
Qed.

Lemma quality_metrics_need_history_witness :
  (exists d : gmap string pyval,
      get_entropy_quality_metrics fallback_host fallback_generator
      = (Ok d, fallback_generator)
      /\ d = {[ "status"%string := PStr "insufficient_data" ]})
  /\ (exists d : gmap string pyval,
         get_entropy_quality_metrics fallback_host warm_generator
         = (Ok d, warm_generator)
         /\ d !! "status"%string = None
         /\ d !! "sample_size"%string = Some (PInt 152)).
Proof.
  assert (H0 : length (entropy_history (self fallback_generator)) = 0%nat)
    by (vm_compute; reflexivity).
  assert (H2 : length (entropy_history (self warm_generator)) = 152%nat)
    by (vm_compute; reflexivity).
  destruct (quality_metrics_need_history fallback_host fallback_generator)
    as [Hfew _].
  destruct (quality_metrics_need_history fallback_host warm_generator)
    as [_ Hmany].
  split.
  - destruct Hfew as (d & E & Hd & _); [rewrite H0; lia|].
    exists d. split; [exact E | exact Hd].
  - destruct Hmany as (d & E & _ & Hstatus & Hsize & _); [rewrite H2; lia|].
    exists d. split; [exact E|]. split; [exact Hstatus|].
    rewrite Hsize, H2. reflexivity.
Defined.

(* ================================================================== *)
(** ** The fresh sample without a usable stream *)
(* ================================================================== *)

(** X1. Without a stream, or with a stopped one, the fresh sample is 32
    bytes of system entropy: the device is not read, the clock is not
    consulted and the generator is left as it was. *)
Theorem no_stream_sample_is_system_entropy env m :
  stream (self m) = None \/ line (world m) = Stopped ->
  exists m',
    _collect_microphone_entropy env m = (Ok (urandom_at env m 32), m')
    /\ self m' = self m
    /\ drawn (world m') = (drawn (world m) + 32)%nat
    /\ frames (world m') = frames (world m)
    /\ reads (world m') = reads (world m)
    /\ ticks (world m') = ticks (world m)
    /\ line (world m') = line (world m).
Proof.
  intros H.
  assert (Hu : stream_unusable m = (Ok true, m)).
  { unfold stream_unusable, stream_is_stopped, bind, gets.
    destruct (stream (self m)) as [s|]; [|reflexivity].
    destruct H as [H | H]; [discriminate | now rewrite H]. }
  unfold _collect_microphone_entropy. rewrite (bind_Ok _ _ _ _ _ Hu).
  eexists. split; [reflexivity|]. cbn. auto 10.
Qed.

Lemma no_stream_sample_is_system_entropy_witness :
  exists m',
    _collect_microphone_entropy fallback_host fallback_generator
    = (Ok (urandom_at fallback_host fallback_generator 32), m')
    /\ frames (world m') = 0%nat.
Proof.
  destruct (no_stream_sample_is_system_entropy fallback_host
              fallback_generator) as (m' & E & _ & _ & Hf & _).
  - left. vm_compute. reflexivity.
  - exists m'. split; [exact E|]. rewrite Hf. vm_compute. reflexivity.
Defined.

(* ================================================================== *)
(** ** The queue of samples *)
(* ================================================================== *)

Lemma collect_empties_queue env m :
  entropy_queue (self (snd (_collect_additional_entropy env m))) = [].
Proof.
  unfold _collect_additional_entropy.
  unfold bind at 1, gets. unfold bind at 1, on_self, modify.
  match goal with
  | |- entropy_queue (self (snd (?c ?m0))) = _ =>
      assert (H : keeps (same_on entropy_queue) c); [|exact (H m0)]
  end.
  frame entropy_queue.
Qed.


(** X2. A call of [next] that fails while collecting entropy raises the
    same exception, gives no output and leaves pool and history as they
    were; the samples that were queued are gone all the same. *)
Theorem failed_next_loses_queue env m e m1 :
  _collect_additional_entropy env m = (Raise e, m1) ->
  next env m = (Raise e, m1)
  /\ entropy_pool (self m1) = entropy_pool (self m)
  /\ entropy_history (self m1) = entropy_history (self m)
  /\ entropy_queue (self m1) = [].
Proof.
  intros E. rewrite next_unfold, E. split; [reflexivity|].
  pose proof (collect_keeps_pool env m) as Hp.
  pose proof (collect_keeps_history env m) as Hh.
  pose proof (collect_empties_queue env m) as Hq.
  rewrite E in Hp, Hh, Hq. auto.
Qed.

Lemma failed_next_loses_queue_witness :
  entropy_queue (self jumpy_generator) = [[1; 2]; [3]]
  /\ exists m1,
       next jumpy_host jumpy_generator = (Raise StructError, m1)
       /\ entropy_pool (self m1) = entropy_pool (self jumpy_generator)
       /\ entropy_queue (self m1) = [].
Proof.
  split; [reflexivity|].
  eexists.
  destruct (failed_next_loses_queue jumpy_host jumpy_generator StructError
              (snd (_collect_additional_entropy jumpy_host jumpy_generator)))
    as (Hn & Hp & _ & Hq).
  - vm_compute. reflexivity.
  - split; [exact Hn|]. split; [exact Hp | exact Hq].
Defined.

Ltac frame_attr f :=
  frame_with (same_on_refl f) (same_on_trans f)
    ltac:(first [ apply frame_collect_additional_entropy; reflexivity
                | frame_more ]).















(** X4. One turn of the background thread never removes or reorders what
    is queued.  With 1000 samples queued it leaves the queue as it is (a
    sample extracted in that turn is dropped); below that, a turn that
    extracts a sample puts it at the back. *)
Theorem collector_appends_or_drops env m :
  ((1000 <= length (entropy_queue (self m)))%nat ->
   entropy_queue (self (snd (collector_iteration env m)))
   = entropy_queue (self m))
  /\ (forall sample m1,
         (length (entropy_queue (self m)) < 1000)%nat ->
         collecting (self m) = true ->
         stream_unusable m = (Ok false, m) ->
         _collect_microphone_entropy env m = (Ok sample, m1) ->
         entropy_queue (self (snd (collector_iteration env m)))
         = entropy_queue (self m) ++ [sample]).
Proof.
  split.
  - intros Hfull. unfold collector_iteration. unfold bind at 1, gets.
    destruct (collecting (self m)); [|reflexivity].
    unfold bind at 1.
    pose proof (stream_unusable_state m) as Hs.
    destruct (stream_unusable m) as [[[|]|e] m0]; cbn [snd] in Hs; subst m0;
      try reflexivity.
    unfold try_except. unfold bind at 1.
    pose proof (frame_collect_microphone_entropy entropy_queue env m) as Hq.
    unfold same_on in Hq.
    destruct (_collect_microphone_entropy env m) as [[sample|e] m1];
      cbn [snd] in Hq; [|exact Hq].
    unfold bind, gets. rewrite Hq.
    replace (1000 <=? Z.of_nat (length (entropy_queue (self m)))) with true
      by (symmetry; apply Z.leb_le; lia).
    exact Hq.
  - intros sample m1 Hroom Hcol Hu E.
    pose proof (frame_collect_microphone_entropy entropy_queue env m) as Hq.
    unfold same_on in Hq. rewrite E in Hq. cbn [snd] in Hq.
    unfold collector_iteration. unfold bind at 1, gets. rewrite Hcol.
    rewrite (bind_Ok _ _ _ _ _ Hu). unfold try_except.
    rewrite (bind_Ok _ _ _ _ _ E). unfold bind, gets. rewrite Hq.
    replace (1000 <=? Z.of_nat (length (entropy_queue (self m)))) with false
      by (symmetry; apply Z.leb_gt; lia).
    reflexivity.
Qed.

Lemma collector_appends_or_drops_witness :
  entropy_queue (self (snd (collector_iteration studio_host
                              saturated_generator)))
  = entropy_queue (self saturated_generator)
  /\ frames (world (snd (collector_iteration studio_host
                           saturated_generator)))
     = 1024%nat
  /\ exists sample,
       entropy_queue (self (snd (collector_iteration studio_host
                                   studio_generator)))
       = [] ++ [sample].
Proof.
  destruct (collector_appends_or_drops studio_host saturated_generator)
    as [Hfull _].
  destruct (collector_appends_or_drops studio_host studio_generator)
    as [_ Hroom].
  split; [apply Hfull; vm_compute; reflexivity|].
  split; [vm_compute; reflexivity|].
  eexists.
  apply (Hroom _ (snd (_collect_microphone_entropy studio_host
                         studio_generator))).
  - vm_compute. lia.
  - vm_compute. reflexivity.
  - vm_compute. reflexivity.
  - vm_compute. reflexivity.
Defined.

Lemma cleanup_clears_flag m : collecting (self (snd (cleanup m))) = false.
Proof.
  destruct m as [[sr cs pool queue history au st col th] [t d f r p l]].
  destruct au as [[]|], st as [[]|], th as [[]|], l; reflexivity.
Qed.

(** X5. After [cleanup] the background thread does nothing more: its
    next turn finds the collecting flag cleared, reads nothing and
    queues nothing. *)
Theorem cleanup_stops_collector env m :
  collector_iteration env (snd (cleanup m)) = (Ok tt, snd (cleanup m)).
Proof.
  unfold collector_iteration. unfold bind at 1, gets.
  rewrite cleanup_clears_flag. reflexivity.
Qed.

(* ================================================================== *)
(** ** What the methods leave alone *)
(* ================================================================== *)

Lemma same_device_refl m : same_device m m.
Proof. split; reflexivity. Qed.

Lemma same_device_trans m1 m2 m3 :
  same_device m1 m2 -> same_device m2 m3 -> same_device m1 m3.
Proof. unfold same_device. intros [] []. split; congruence. Qed.

Lemma device_time_ns env : keeps same_device (time_ns env).
Proof. intros m. split; reflexivity. Qed.

Lemma device_os_urandom env n : keeps same_device (os_urandom env n).
Proof. intros m. split; reflexivity. Qed.

Lemma device_os_getpid env : keeps same_device (os_getpid env).
Proof. intros m. split; reflexivity. Qed.

Lemma device_on_self g : keeps same_device (on_self g).
Proof. intros m. split; reflexivity. Qed.

Lemma device_stream_read env s n : keeps same_device (stream_read env s n).
Proof.
  intros m. unfold stream_read, same_device. destruct (n <? 0); [auto|].
  destruct (line (world m)) eqn:E; cbn; rewrite ?E; auto.
  destruct (mic_fault env _); cbn; auto.
Qed.

Lemma device_stream_is_stopped s : keeps same_device (stream_is_stopped s).
Proof.
  intros m. unfold stream_is_stopped, bind, gets.
  destruct (line (world m)); split; reflexivity.
Qed.

Ltac device_leaf :=
  first [ apply device_time_ns | apply device_os_urandom
        | apply device_os_getpid | apply device_on_self
        | apply device_stream_read | apply device_stream_is_stopped
        | assumption ].

Ltac frame_device :=
  frame_with same_device_refl same_device_trans device_leaf.

Lemma device_collect_microphone_entropy env :
  keeps same_device (_collect_microphone_entropy env).
Proof. unfold _collect_microphone_entropy, stream_unusable. frame_device. Qed.

Lemma device_collect_initial_entropy env :
  keeps same_device (_collect_initial_entropy env).
Proof.
  pose proof (device_collect_microphone_entropy env).
  unfold _collect_initial_entropy, stream_unusable. frame_device.
Qed.

Lemma device_next env : keeps same_device (next env).
Proof.
  pose proof (device_collect_microphone_entropy env).
  unfold next, _collect_additional_entropy. frame_device.
Qed.




(** The references held by the generator are set by [_setup_audio] and
    [_start_continuous_collection] and by nothing else. *)
Lemma handles_kept_next env : keeps (same_on handles) (next env).
Proof. unfold next. frame_attr handles. Qed.

Lemma handles_kept_collect_initial_entropy env :
  keeps (same_on handles) (_collect_initial_entropy env).
Proof. unfold _collect_initial_entropy. frame_attr handles. Qed.

Lemma handles_kept_after env c m :
  handles (self (after env c m)) = handles (self m).
Proof.
  change (same_on handles m (after env c m)).
  pose proof (handles_kept_next env) as Hnext.
  assert (Hnorm : keeps (same_on handles) (normalized_next env)).
  { unfold normalized_next.
    frame_with (same_on_refl handles) (same_on_trans handles) assumption. }
  destruct c; cbn [after].
  - apply Hnext.
  - apply (keeps_loop _ (same_on_refl handles) (same_on_trans handles)),
      Hnext.
  - apply Hnorm.
  - apply (keeps_loop _ (same_on_refl handles) (same_on_trans handles)),
      Hnorm.
  - assert (H : keeps (same_on handles) (get_entropy_estimate)) by (unfold get_entropy_estimate; frame_attr handles).
    apply H.
  - apply handles_kept_collect_initial_entropy.
  - assert (H : keeps (same_on handles) (get_audio_status env)) by (unfold get_audio_status; frame_attr handles).
    apply H.
  - assert (H : keeps (same_on handles) (get_entropy_quality_metrics env)) by (unfold get_entropy_quality_metrics; frame_attr handles).
    apply H.
  - assert (H : keeps (same_on handles) (cleanup)) by (unfold cleanup; frame_attr handles).
    apply H.
  - assert (H : keeps (same_on handles) (collector_iteration env)) by (unfold collector_iteration; frame_attr handles).
    apply H.
Qed.

(** Whether construction obtained a stream. *)
Lemma acquire_device_handles env sample_rate chunk_size w :
  let m0 := snd (acquire_device env
                   {| self := blank sample_rate chunk_size; world := w |}) in
  handles (self m0)
  = (if AUDIO_AVAILABLE env && negb (pa_init_fails env)
        && negb (pa_open_fails env)
     then (Some the_audio, Some the_stream, Some the_thread)
     else (None, None, None))
  /\ (stream (self m0) <> None -> line (world m0) = Active).
Proof.
  unfold acquire_device, _setup_audio, _start_continuous_collection,
    pyaudio_PyAudio, audio_open.
  destruct (AUDIO_AVAILABLE env); [|cbn; split; [reflexivity | congruence]].
  destruct (pa_init_fails env); [cbn; split; [reflexivity | congruence]|].
  destruct (pa_open_fails env); cbn; split; try reflexivity; congruence.
Qed.

Lemma init_state env sample_rate chunk_size w :
  let m0 := snd (acquire_device env
                   {| self := blank sample_rate chunk_size; world := w |}) in
  let m := snd (__init__ env sample_rate chunk_size w) in
  handles (self m) = handles (self m0)
  /\ line (world m) = line (world m0).
Proof.
  intros m0 m. subst m m0. rewrite init_unfold. unfold bind.
  destruct (acquire_device env _) as [[[]|e] m0]; cbn [snd]; [|auto].
  split.
  - apply (handles_kept_collect_initial_entropy env m0).
  - apply (device_collect_initial_entropy env m0).
Qed.

(** X7. Construction obtains the audio handle, the stream and the
    thread together or not at all: all three when the library is there
    and both [PyAudio()] and [open] succeed, none otherwise.  No later
    call changes them; in particular [cleanup] does not reset them. *)
Theorem handles_all_or_nothing env sample_rate chunk_size w cs :
  handles (self (after_all env cs
                   (snd (__init__ env sample_rate chunk_size w))))
  = if AUDIO_AVAILABLE env && negb (pa_init_fails env)
       && negb (pa_open_fails env)
    then (Some the_audio, Some the_stream, Some the_thread)
    else (None, None, None).
Proof.
  assert (H : forall m, handles (self (after_all env cs m))
                        = handles (self m)).
  { unfold after_all. induction cs as [|c cs IH]; intros m;
      cbn [fold_left]; [reflexivity|].
    rewrite IH. apply handles_kept_after. }
  rewrite H.
  destruct (init_state env sample_rate chunk_size w) as [Hh _].
  rewrite Hh.
  apply (acquire_device_handles env sample_rate chunk_size w).
Qed.

(** X8. What [get_audio_status] answers right after construction:
    "PyAudio not available" without the library, "Microphone not
    initialized" when [PyAudio()] or [open] failed, "Microphone active"
    otherwise; never "Microphone stopped", and never an exception. *)
Theorem audio_status_after_construction env sample_rate chunk_size w :
  fst (get_audio_status env (snd (__init__ env sample_rate chunk_size w)))
  = Ok (if negb (AUDIO_AVAILABLE env) then "PyAudio not available"
        else if pa_init_fails env || pa_open_fails env
             then "Microphone not initialized"
             else "Microphone active")%string.
Proof.
  destruct (init_state env sample_rate chunk_size w) as [Hh Hl].
  destruct (acquire_device_handles env sample_rate chunk_size w)
    as [Hh0 Hl0].
  cbv zeta in Hh, Hl, Hh0, Hl0. rewrite Hh0 in Hh.
  unfold get_audio_status.
  destruct (AUDIO_AVAILABLE env); [|reflexivity].
  cbn [negb andb] in *. unfold bind at 1, gets.
  destruct (pa_init_fails env); cbn [negb andb orb] in *.
  { injection Hh as _ Hs _. rewrite Hs. reflexivity. }
  destruct (pa_open_fails env); cbn [negb andb orb] in *.
  { injection Hh as _ Hs _. rewrite Hs. reflexivity. }
  injection Hh as _ Hs _. rewrite Hs.
  unfold stream_is_stopped, bind, gets. rewrite Hl, Hl0; [reflexivity|].
  assert (Hs0 : handles (self (snd (acquire_device env
                  {| self := blank sample_rate chunk_size; world := w |})))
                = (Some the_audio, Some the_stream, Some the_thread))
    by exact Hh0.
  injection Hs0 as _ Hs0 _. rewrite Hs0. discriminate.
Qed.

(* ================================================================== *)
(** ** Sequences of outputs *)
(* ================================================================== *)

Section Loops.
Context {A : Type} (body : M Machine A).

Lemma collect_loop_length n :
  forall m xs m', collect_loop n body m = (Ok xs, m') -> length xs = n.
Proof.
  induction n as [|n IH]; intros m xs m'; cbn [collect_loop].
  - intros [= <- _]. reflexivity.
  - unfold bind at 1. destruct (body m) as [[a|e] m1]; [|discriminate].
    unfold bind at 1.
    destruct (collect_loop n body m1) as [[ys|e] m2] eqn:E; [|discriminate].
    intros [= <- _]. cbn [length]. f_equal. exact (IH _ _ _ E).
Qed.

Lemma collect_loop_Forall (P : A -> Prop) n :
  (forall m a m', body m = (Ok a, m') -> P a) ->
  forall m xs m', collect_loop n body m = (Ok xs, m') -> Forall P xs.
Proof.
  intros Hb. induction n as [|n IH]; intros m xs m'; cbn [collect_loop].
  - intros [= <- _]. constructor.
  - unfold bind at 1. destruct (body m) as [[a|e] m1] eqn:E1; [|discriminate].
    unfold bind at 1.
    destruct (collect_loop n body m1) as [[ys|e] m2] eqn:E; [|discriminate].
    intros [= <- _]. constructor; [exact (Hb _ _ _ E1) | exact (IH _ _ _ E)].
Qed.

(** What holds after each turn holds at the end of a loop that made at
    least one. *)
Lemma collect_loop_last (Q : Machine -> Prop) n :
  (forall m a m', body m = (Ok a, m') -> Q m') ->
  forall m xs m',
    (0 < n)%nat -> collect_loop n body m = (Ok xs, m') -> Q m'.
Proof.
  intros Hb. induction n as [|n IH]; intros m xs m' Hn; [lia|].
  cbn [collect_loop]. unfold bind at 1.
  destruct (body m) as [[a|e] m1] eqn:E1; [|discriminate].
  unfold bind at 1.
  destruct (collect_loop n body m1) as [[ys|e] m2] eqn:E; [|discriminate].
  intros [= _ <-].
  destruct n as [|n].
  - cbn in E. injection E as _ <-. exact (Hb _ _ _ E1).
  - apply (IH m1 ys m2); [lia | exact E].
Qed.

Lemma collect_loop_returns (I : Machine -> Prop) n :
  (forall m, I m -> exists a m', body m = (Ok a, m') /\ I m') ->
  forall m, I m -> exists xs m', collect_loop n body m = (Ok xs, m').
Proof.
  intros Hb. induction n as [|n IH]; intros m Hm; cbn [collect_loop].
  - eexists _, _. reflexivity.
  - destruct (Hb m Hm) as (a & m1 & E1 & H1).
    destruct (IH m1 H1) as (xs & m2 & E2).
    rewrite (bind_Ok _ _ _ _ _ E1), (bind_Ok _ _ _ _ _ E2).
    eexists _, _. reflexivity.
Qed.

Lemma collect_loop_app a b :
  forall m,
    collect_loop (a + b) body m
    = match collect_loop a body m with
      | (Ok xs, m1) =>
          match collect_loop b body m1 with
          | (Ok ys, m2) => (Ok (xs ++ ys), m2)
          | (Raise e, m2) => (Raise e, m2)
          end
      | (Raise e, m1) => (Raise e, m1)
      end.
Proof.
  induction a as [|a IH]; intros m; cbn [collect_loop Nat.add].
  - cbn. destruct (collect_loop b body m) as [[ys|e] m2]; reflexivity.
  - unfold bind, ret. destruct (body m) as [[x|e] m0]; [|reflexivity].
    rewrite IH.
    destruct (collect_loop a body m0) as [[xs|e] m1]; [|reflexivity].
    destruct (collect_loop b body m1) as [[ys|e] m2]; reflexivity.
Qed.

Lemma collect_loop_map {B} (f : A -> B) n :
  forall m,
    collect_loop n (x <- body ;; ret (f x)) m
    = match collect_loop n body m with
      | (Ok xs, m') => (Ok (map f xs), m')
      | (Raise e, m') => (Raise e, m')
      end.
Proof.
  induction n as [|n IH]; intros m; cbn [collect_loop]; [reflexivity|].
  unfold bind, ret in *. destruct (body m) as [[x|e] m0]; [|reflexivity].
  rewrite IH.
  destruct (collect_loop n body m0) as [[xs|e] m1]; reflexivity.
Qed.
End Loops.

Lemma next_keeps_stream_open env m :
  stream_open m -> stream_open (snd (next env m)).
Proof.
  unfold stream_open.
  pose proof (handles_kept_next env m) as Hh.
  destruct (device_next env m) as [Hl _].
  unfold same_on, handles in Hh. injection Hh as _ Hs _.
  rewrite Hs, Hl. exact id.
Qed.

(** X9. [generate_sequence(n)], when it returns, returns exactly [n]
    integers, each an unsigned 32-bit value, and for [n > 0] leaves a
    pool of 24 bytes; for [n = 0] it returns the empty list and touches
    nothing.  It returns whenever the clock is steady and the stream, if
    any, is open. *)
Theorem generate_sequence_outputs env n m :
  (forall xs m',
      generate_sequence env n m = (Ok xs, m') ->
      length xs = n
      /\ Forall (fun x => 0 <= x < 2 ^ 32) xs
      /\ ((0 < n)%nat -> length (entropy_pool (self m')) = 24%nat))
  /\ generate_sequence env 0 m = (Ok [], m)
  /\ (steady_clock env -> stream_open m ->
      exists xs m', generate_sequence env n m = (Ok xs, m')).
Proof.
  unfold generate_sequence. split; [|split; [reflexivity|]].
  - intros xs m' H. split; [exact (collect_loop_length _ _ _ _ _ H)|].
    split.
    + apply (collect_loop_Forall (next env) _ n) with (m := m) (m' := m');
        [|exact H].
      intros m0 a m0' H0. apply (next_output_fits env m0 a m0' H0).
    + intros Hn.
      apply (collect_loop_last (next env)
               (fun m' => length (entropy_pool (self m')) = 24%nat) n)
        with (m := m) (xs := xs); [|exact Hn|exact H].
      intros m0 a m0' H0. apply (next_output_fits env m0 a m0' H0).
  - intros Hclock Hopen.
    apply (collect_loop_returns (next env) stream_open); [|exact Hopen].
    intros m0 H0.
    destruct (next_returns env Hclock m0 H0) as (out & m0' & E).
    exists out, m0'. split; [exact E|].
    pose proof (next_keeps_stream_open env m0 H0) as Hk.
    rewrite E in Hk. exact Hk.
Qed.

Lemma generate_sequence_outputs_witness :
  exists xs m',
    generate_sequence fallback_host 3 fallback_generator = (Ok xs, m')
    /\ length xs = 3%nat
    /\ length (entropy_pool (self m')) = 24%nat.
Proof.
  destruct (generate_sequence_outputs fallback_host 3 fallback_generator)
    as (Hout & _ & Hret).
  destruct (Hret fallback_host_steady fallback_generator_open)
    as (xs & m' & E).
  destruct (Hout xs m' E) as (Hlen & _ & Hpool).
  exists xs, m'. split; [exact E|]. split; [exact Hlen|].
  apply Hpool. lia.
Defined.

(** X10. [generate_sequence] does no batching: asking for [a + b]
    outputs is asking for [a] and then, from the state reached, for [b];
    if the first part raises, so does the whole, in the same state. *)
Theorem generate_sequence_splits env a b m :
  generate_sequence env (a + b) m
  = match generate_sequence env a m with
    | (Ok xs, m1) =>
        match generate_sequence env b m1 with
        | (Ok ys, m2) => (Ok (xs ++ ys), m2)
        | (Raise e, m2) => (Raise e, m2)
        end
    | (Raise e, m1) => (Raise e, m1)
    end.
Proof. unfold generate_sequence. apply collect_loop_app. Qed.

(** A loop whose body post-processes what another body returns, by a
    function that does not fail on it, follows the loop of that body. *)
Lemma collect_loop_lift {A B} (body : M Machine A) (f : A -> result B) n :
  (forall m a m', body m = (Ok a, m') -> exists b, f a = Ok b) ->
  forall m,
    match collect_loop n body m with
    | (Ok xs, m') =>
        exists ys,
          collect_loop n (x <- body ;; lift (f x)) m = (Ok ys, m')
          /\ Forall2 (fun x y => f x = Ok y) xs ys
    | (Raise e, m') =>
        collect_loop n (x <- body ;; lift (f x)) m = (Raise e, m')
    end.
Proof.
  intros Hf. induction n as [|n IH]; intros m; cbn [collect_loop].
  - exists []. split; [reflexivity | constructor].
  - unfold bind, ret, lift in *.
    destruct (body m) as [[x|e] m0] eqn:Eb; [|reflexivity].
    destruct (Hf _ _ _ Eb) as (y & Ey). rewrite Ey.
    specialize (IH m0).
    destruct (collect_loop n body m0) as [[xs|e] m1].
    + destruct IH as (ys & E & HF). rewrite E. exists (y :: ys).
      split; [reflexivity|]. constructor; assumption.
    + rewrite IH. reflexivity.
Qed.

(** X11. [normalized_sequence(n)] gives the quotients by 0xFFFFFFFF,
    each rounded to a double, of what [generate_sequence(n)] gives from
    the same state, in the same order, and leaves the generator in the
    same state; every one of them lies between 0 and 1 inclusive; and it
    raises when and what [generate_sequence(n)] raises. *)
Theorem normalized_sequence_is_scaled_sequence env n m :
  match generate_sequence env n m with
  | (Ok xs, m') =>
      exists fs,
        normalized_sequence env n m = (Ok fs, m')
        /\ Forall2 (fun x f => normalize x = Ok f) xs fs
        /\ length fs = n
        /\ Forall (fun f => exists q, f = Finite q /\ (0 <= q <= 1)%Q) fs
  | (Raise e, m') => normalized_sequence env n m = (Raise e, m')
  end.
Proof.
  assert (Hf : forall m0 a m0',
             next env m0 = (Ok a, m0') -> exists b, normalize a = Ok b).
  { intros m0 a m0' H0. destruct (next_output_fits env m0 a m0' H0) as [Ha _].
    destruct (normalize_range a Ha) as (q & E & _). eexists. exact E. }
  pose proof (collect_loop_lift (next env) normalize n Hf m) as H.
  unfold normalized_sequence, generate_sequence, normalized_next.
  destruct (collect_loop n (next env) m) as [[xs|e] m1] eqn:Eg; [|exact H].
  destruct H as (fs & E & HF). exists fs.
  split; [exact E|]. split; [exact HF|].
  pose proof (collect_loop_length _ _ _ _ _ Eg) as Hlen.
  split; [rewrite <- (Forall2_length _ _ _ HF); exact Hlen|].
  assert (Hxs : Forall (fun x => 0 <= x < 2 ^ 32) xs).
  { apply (collect_loop_Forall (next env) _ n) with (m := m) (m' := m1);
      [|exact Eg].
    intros m0 a m0' H0. exact (proj1 (next_output_fits env m0 a m0' H0)). }
  clear - HF Hxs.
  induction HF as [|x f xs fs Hx HF IH]; [constructor|].
  inversion Hxs as [|? ? Hx0 Hxs0]; subst.
  constructor; [|exact (IH Hxs0)].
  destruct (normalize_range x Hx0) as (q & E & _ & _ & H0 & H1 & _).
  rewrite E in Hx. injection Hx as <-. exists q. auto.
Qed.

Lemma normalized_sequence_is_scaled_sequence_witness :
  exists fs m',
    normalized_sequence fallback_host 2 fallback_generator = (Ok fs, m')
    /\ length fs = 2%nat.
Proof.
  pose (r := generate_sequence fallback_host 2 fallback_generator).
  pose (xs := match fst r with Ok xs => xs | Raise _ => [] end).
  assert (E : generate_sequence fallback_host 2 fallback_generator
              = (Ok xs, snd r)) by (vm_compute; reflexivity).
  pose proof (normalized_sequence_is_scaled_sequence fallback_host 2
                fallback_generator) as H.
  rewrite E in H. destruct H as (fs & En & _ & Hl & _).
  exists fs, (snd r). split; assumption.
Defined.

(* ================================================================== *)
(** ** More on debiasing *)
(* ================================================================== *)

Lemma adjacent_pairs_app xs ys :
  Nat.Even (length xs) ->
  adjacent_pairs (xs ++ ys) = adjacent_pairs xs ++ adjacent_pairs ys.
Proof.
  induction xs as [| a | a b rest IH] using pairwise_ind; intros H.
  - reflexivity.
  - destruct H as [k Hk]. cbn in Hk. lia.
  - cbn [app adjacent_pairs]. f_equal. apply IH.
    destruct H as [k Hk]. exists (k - 1)%nat. cbn in Hk. lia.
Qed.

Lemma emit_differing_app ps qs :
  emit_differing (ps ++ qs) = emit_differing ps ++ emit_differing qs.
Proof. unfold emit_differing. apply flat_map_app. Qed.

Lemma debias_bits bits :
  Forall is_bit bits ->
  _von_neumann_debias bits = Ok (emit_differing (adjacent_pairs bits)).
Proof.
  intros H. unfold _von_neumann_debias. rewrite debias_loop_spec.
  apply bytes_of_bits, emit_differing_bits, H.
Qed.

(** X12. Debiasing never pairs bits across an even boundary: a block of
    even length followed by another debiases to the two outputs one
    after the other; in particular a last bit without a partner is
    ignored. *)
Theorem debias_blockwise xs ys :
  Nat.Even (length xs) -> Forall is_bit xs -> Forall is_bit ys ->
  exists a b,
    _von_neumann_debias xs = Ok a
    /\ _von_neumann_debias ys = Ok b
    /\ _von_neumann_debias (xs ++ ys) = Ok (a ++ b)
    /\ (length ys = 1%nat -> _von_neumann_debias (xs ++ ys) = Ok a).
Proof.
  intros Heven Hxs Hys.
  exists (emit_differing (adjacent_pairs xs)),
         (emit_differing (adjacent_pairs ys)).
  split; [exact (debias_bits xs Hxs)|].
  split; [exact (debias_bits ys Hys)|].
  assert (E : _von_neumann_debias (xs ++ ys)
              = Ok (emit_differing (adjacent_pairs xs)
                    ++ emit_differing (adjacent_pairs ys))).
  { rewrite debias_bits by (apply Forall_app; auto).
    now rewrite adjacent_pairs_app, emit_differing_app. }
  split; [exact E|].
  intros Hone. rewrite E.
  destruct ys as [|y [|y' ys]]; try discriminate Hone.
  cbn. now rewrite app_nil_r.
Qed.

Lemma debias_blockwise_witness :
  _von_neumann_debias ([0; 1; 1; 1] ++ [1; 0]) = Ok ([0] ++ [1]).
Proof.
  destruct (debias_blockwise [0; 1; 1; 1] [1; 0]) as (a & b & Ha & Hb & E & _).
  - exists 2%nat. reflexivity.
  - repeat (constructor; [unfold is_bit; lia|]). constructor.
  - repeat (constructor; [unfold is_bit; lia|]). constructor.
  - rewrite E. injection Ha as <-. injection Hb as <-. reflexivity.
Defined.

Lemma adjacent_pairs_flip bits :
  adjacent_pairs (map (fun b => 1 - b) bits)
  = map (fun p => (1 - fst p, 1 - snd p)) (adjacent_pairs bits).
Proof.
  induction bits as [| a | a b rest IH] using pairwise_ind;
    cbn [map adjacent_pairs fst snd]; [reflexivity..|].
  now rewrite IH.
Qed.

Lemma emit_differing_flip ps :
  emit_differing (map (fun p => (1 - fst p, 1 - snd p)) ps)
  = map (fun b => 1 - b) (emit_differing ps).
Proof.
  unfold emit_differing. induction ps as [|[a b] ps IH]; [reflexivity|].
  cbn [map flat_map fst snd]. rewrite map_app, IH. f_equal.
  destruct (a =? b) eqn:E.
  - apply Z.eqb_eq in E. subst. now rewrite Z.eqb_refl.
  - apply Z.eqb_neq in E.
    destruct (1 - a =? 1 - b) eqn:E'; [|reflexivity].
    apply Z.eqb_eq in E'. lia.
Qed.

Lemma flip_bits bits :
  Forall is_bit bits -> Forall is_bit (map (fun b => 1 - b) bits).
Proof.
  intros H. apply Forall_map. eapply Forall_impl; [exact H|].
  intros b [-> | ->]; unfold is_bit; cbn; auto.
Qed.

Lemma adjacent_pairs_repeat b n :
  emit_differing (adjacent_pairs (repeat b n)) = [].
Proof.
  assert (H : forall k, (k <= n)%nat ->
                        emit_differing (adjacent_pairs (repeat b k)) = []).
  { induction n as [|n IH]; intros k Hk.
    - replace k with 0%nat by lia. reflexivity.
    - destruct k as [|[|k]]; [reflexivity..|].
      cbn [repeat adjacent_pairs emit_differing flat_map fst snd].
      rewrite Z.eqb_refl. cbn [app]. apply (IH k). lia. }
  apply (H n). lia.
Qed.

(** X13. Debiasing treats 0 and 1 alike: complementing every input bit
    complements every output bit, so as many zeros come out of a
    sequence as ones come out of its complement.  A constant sequence
    gives nothing at all. *)
Theorem debias_symmetric bits :
  Forall is_bit bits ->
  exists out,
    _von_neumann_debias bits = Ok out
    /\ _von_neumann_debias (map (fun b => 1 - b) bits)
       = Ok (map (fun b => 1 - b) out)
    /\ (forall b n, bits = repeat b n -> out = []).
Proof.
  intros H. exists (emit_differing (adjacent_pairs bits)).
  split; [exact (debias_bits bits H)|]. split.
  - rewrite debias_bits by (apply flip_bits, H).
    now rewrite adjacent_pairs_flip, emit_differing_flip.
  - intros b n ->. apply adjacent_pairs_repeat.
Qed.

Lemma debias_symmetric_witness :
  _von_neumann_debias (map (fun b => 1 - b) [0; 1; 1; 0; 1; 1])
  = Ok (map (fun b => 1 - b) [0; 1]).
Proof.
  destruct (debias_symmetric [0; 1; 1; 0; 1; 1]) as (out & Ho & Hflip & _).
  - repeat (constructor; [unfold is_bit; lia|]). constructor.
  - rewrite Hflip. injection Ho as <-. reflexivity.
Defined.

(* ================================================================== *)
(** ** The history keeps the newest bytes *)
(* ================================================================== *)

Lemma deque_extend_newest maxlen xs :
  0 < maxlen ->
  forall d,
    Z.of_nat (length d) <= maxlen ->
    Deque.extend maxlen d xs
    = drop (length (d ++ xs) - Z.to_nat maxlen) (d ++ xs).
Proof.
  intros Hpos. unfold Deque.extend.
  induction xs as [|x xs IH]; intros d Hd; cbn [fold_left].
  - rewrite app_nil_r.
    replace (length d - Z.to_nat maxlen)%nat with 0%nat by lia. reflexivity.
  - rewrite IH by (apply deque_append_bound, Hd).
    unfold Deque.append.
    replace (maxlen <=? 0) with false by (symmetry; apply Z.leb_gt; lia).
    destruct (maxlen <=? Z.of_nat (length d)) eqn:E.
    + apply Z.leb_le in E.
      destruct d as [|y d]; [cbn in E; lia|].
      cbn [tail]. rewrite <- !app_assoc. cbn [app].
      rewrite !length_app. cbn [length] in *. rewrite length_app.
      cbn [length].
      replace (S (length d + S (length xs)) - Z.to_nat maxlen)%nat
        with (S (length d + S (length xs) - Z.to_nat maxlen))%nat by lia.
      reflexivity.
    + rewrite <- app_assoc. reflexivity.
Qed.

(** X14. The history is a window on what was collected: after a call of
    [next] it consists of the old history followed by the first 100
    bytes of the collected entropy, cut at the front to the newest 10000
    bytes; the oldest bytes go first and the order is kept. *)
Theorem history_keeps_newest env m entropy m1 :
  Z.of_nat (length (entropy_history (self m))) <= 10000 ->
  _collect_additional_entropy env m = (Ok entropy, m1) ->
  let h := entropy_history (self m) ++ take 100 entropy in
  entropy_history (self (snd (next env m)))
  = drop (length h - Z.to_nat 10000) h.
Proof.
  intros Hfit E h. rewrite (next_history env m entropy m1 E).
  apply deque_extend_newest; [lia | exact Hfit].
Qed.

Lemma history_keeps_newest_witness :
  let r := _collect_additional_entropy fallback_host used_generator in
  let entropy := match fst r with Ok e => e | Raise _ => [] end in
  let h := entropy_history (self used_generator) ++ take 100 entropy in
  entropy_history (self (snd (next fallback_host used_generator)))
  = drop (length h - Z.to_nat 10000) h.
Proof.
  intros r entropy.
  assert (E : r = (Ok entropy, snd r)) by (vm_compute; reflexivity).
  assert (Hfit : Z.of_nat (length (entropy_history (self used_generator)))
                 <= 10000) by (vm_compute; discriminate).
  exact (history_keeps_newest fallback_host used_generator entropy (snd r)
           Hfit E).
Defined.

(* ================================================================== *)
(** ** More on the quality metrics *)
(* ================================================================== *)

Lemma size_bytes_universe :
  size (list_to_set (map Z.of_nat (seq 0 256)) : gset Z) = 256%nat.
Proof. vm_compute. reflexivity. Qed.

Lemma size_list_to_set_le (l : list Z) :
  (size (list_to_set l : gset Z) <= length l)%nat.
Proof.
  induction l as [|x l IH]; [rewrite list_to_set_nil, size_empty; lia|].
  rewrite list_to_set_cons, size_union_alt, size_singleton.
  assert (Hsub : (list_to_set l ∖ {[x]} : gset Z) ⊆ list_to_set l).
  { intros y Hy. apply elem_of_difference in Hy. tauto. }
  apply subseteq_size in Hsub. cbn [length]. lia.
Qed.

Lemma byte_in_universe (x : Z) :
  0 <= x < 256 ->
  x ∈ (list_to_set (map Z.of_nat (seq 0 256)) : gset Z).
Proof.
  intros Hx. apply elem_of_list_to_set, list_elem_of_In, in_map_iff.
  exists (Z.to_nat x). split; [lia|]. apply in_seq. lia.
Qed.

Lemma in_universe_byte (x : Z) :
  x ∈ (list_to_set (map Z.of_nat (seq 0 256)) : gset Z) -> 0 <= x < 256.
Proof.
  intros Hx. apply elem_of_list_to_set, list_elem_of_In, in_map_iff in Hx.
  destruct Hx as (k & <- & Hk). apply in_seq in Hk. lia.
Qed.

Lemma unique_bytes_bounds (history : list Z) :
  let data := astype_uint8 history in
  let u := size (list_to_set data : gset Z) in
  (u <= 256)%nat /\ (u <= length history)%nat
  /\ (history <> [] -> (1 <= u)%nat)
  /\ ((forall b, 0 <= b < 256 -> In b history) -> u = 256%nat).
Proof.
  intros data u.
  assert (Hsub : (list_to_set data : gset Z)
                 ⊆ list_to_set (map Z.of_nat (seq 0 256))).
  { intros x Hx. apply byte_in_universe.
    apply elem_of_list_to_set, list_elem_of_In, in_map_iff in Hx.
    destruct Hx as (y & <- & _). apply Z.mod_pos_bound. lia. }
  apply subseteq_size in Hsub. rewrite size_bytes_universe in Hsub.
  split; [exact Hsub|]. split.
  - subst u data. unfold astype_uint8.
    rewrite <- (length_map (fun x => x mod 256) history).
    apply size_list_to_set_le.
  - split.
    + intros Hne. destruct history as [|x history]; [congruence|].
      assert (Hx : ({[ x mod 256 ]} : gset Z) ⊆ list_to_set data).
      { subst data. cbn [astype_uint8 map]. rewrite list_to_set_cons.
        set_solver. }
      apply subseteq_size in Hx. rewrite size_singleton in Hx. exact Hx.
    + intros Hall.
      assert (Hsup : (list_to_set (map Z.of_nat (seq 0 256)) : gset Z)
                     ⊆ list_to_set data).
      { intros x Hx. apply in_universe_byte in Hx.
        apply elem_of_list_to_set, list_elem_of_In, in_map_iff.
        exists x. split; [now apply Z.mod_small | now apply Hall]. }
      apply subseteq_size in Hsup. rewrite size_bytes_universe in Hsup.
      subst u. lia.
Qed.

Lemma metrics_with_history env m :
  (100 <= length (entropy_history (self m)))%nat ->
  exists d : gmap string pyval,
    get_entropy_quality_metrics env m = (Ok d, m)
    /\ d !! "unique_bytes"%string
       = Some (PInt (Z.of_nat (size (list_to_set
                 (astype_uint8 (entropy_history (self m))) : gset Z))))
    /\ d !! "entropy_estimate"%string
       = Some (PFloat (Finite (Z.of_nat (size (list_to_set
                 (astype_uint8 (entropy_history (self m))) : gset Z))
               # 256))).
Proof.
  intros Hge. unfold get_entropy_quality_metrics, bind, gets, ret.
  replace (length (entropy_history (self m)) <? 100)%nat with false
    by (symmetry; apply Nat.ltb_ge; exact Hge).
  eexists. split; [reflexivity|]. split; by simplify_map_eq.
Qed.

(** X15. In the statistics, [unique_bytes] is at least 1, at most 256
    and at most the sample size, and [entropy_estimate] is it divided by
    256, so a value from 1/256 to 1; a history in which every byte value
    occurs gives [unique_bytes = 256] and [entropy_estimate = 1]. *)
Theorem quality_metrics_unique_bytes env m :
  (100 <= length (entropy_history (self m)))%nat ->
  exists (d : gmap string pyval) (u : Z),
    get_entropy_quality_metrics env m = (Ok d, m)
    /\ d !! "unique_bytes"%string = Some (PInt u)
    /\ d !! "entropy_estimate"%string = Some (PFloat (Finite (u # 256)))
    /\ 1 <= u <= 256
    /\ u <= Z.of_nat (length (entropy_history (self m)))
    /\ ((forall b, 0 <= b < 256 -> In b (entropy_history (self m))) ->
        u = 256 /\ (u # 256 == 1)%Q).
Proof.
  intros Hge.
  destruct (metrics_with_history env m Hge) as (d & E & Hu & He).
  destruct (unique_bytes_bounds (entropy_history (self m)))
    as (H256 & Hlen & Hpos & Hall).
  exists d, (Z.of_nat (size (list_to_set
               (astype_uint8 (entropy_history (self m))) : gset Z))).
  split; [exact E|]. split; [exact Hu|]. split; [exact He|].
  split.
  - split; [|lia].
    assert (entropy_history (self m) <> []) as Hne.
    { intros Hnil. rewrite Hnil in Hge. cbn in Hge. lia. }
    specialize (Hpos Hne). lia.
  - split; [lia|]. intros Hb. rewrite (Hall Hb). split; reflexivity.
Qed.

Lemma quality_metrics_unique_bytes_witness :
  exists d : gmap string pyval,
    get_entropy_quality_metrics fallback_host rainbow_generator
    = (Ok d, rainbow_generator)
    /\ d !! "unique_bytes"%string = Some (PInt 256).
Proof.
  destruct (quality_metrics_unique_bytes fallback_host rainbow_generator)
    as (d & u & E & Hu & _ & _ & _ & Hall).
  - cbn [rainbow_generator self entropy_history set_entropy_history].
    rewrite length_map, length_seq. lia.
  - exists d. split; [exact E|]. rewrite Hu.
    destruct Hall as [-> _]; [|reflexivity].
    intros b Hb. cbn [rainbow_generator self entropy_history
                        set_entropy_history].
    apply in_map_iff. exists (Z.to_nat b). split; [lia|].
    apply in_seq. lia.
Defined.

(* ================================================================== *)
(** ** What [next] hashes *)
(* ================================================================== *)

Lemma struct_pack_inv bo n x b :
  struct_pack bo n x = Ok b ->
  b = encode bo n x /\ 0 <= x < 256 ^ Z.of_nat n.
Proof.
  unfold struct_pack.
  destruct (0 <=? x) eqn:E0; [|discriminate].
  destruct (x <? 256 ^ Z.of_nat n) eqn:E1; [|discriminate].
  cbn. intros [= <-]. apply Z.leb_le in E0. apply Z.ltb_lt in E1. auto.
Qed.

Lemma np_array_uint64_inv xs ys : np_array_uint64 xs = Ok ys -> ys = xs.
Proof.
  unfold np_array_uint64. destruct (forallb _ _); [|discriminate].
  now intros [= <-].
Qed.


Lemma low_bytes_length a : length (low_bytes a) = length a.
Proof. unfold low_bytes, astype_uint8. now rewrite !length_map. Qed.

(** The entropy that [_collect_additional_entropy] returns, piece by
    piece. *)
Lemma bind_inv {S A B} (c : M S A) (k : A -> M S B) s b s' :
  bind c k s = (Ok b, s') ->
  exists a s0, c s = (Ok a, s0) /\ k a s0 = (Ok b, s').
Proof.
  unfold bind. destruct (c s) as [[a|e] s0]; [|discriminate].
  intros H. exists a, s0. split; [reflexivity | exact H].
Qed.

Lemma lift_inv {S A} (r : result A) (s : S) a s' :
  lift r s = (Ok a, s') -> r = Ok a /\ s' = s.
Proof. unfold lift. intros [= -> ->]. split; reflexivity. Qed.

Lemma collect_additional_entropy_inv env m entropy m1 :
  _collect_additional_entropy env m = (Ok entropy, m1) ->
  exists fresh m0 sys jitter packed,
    _collect_microphone_entropy env (drained m) = (Ok fresh, m0)
    /\ entropy
       = concat (entropy_queue (self m)) ++ fresh ++ sys ++ jitter ++ packed
    /\ sys = urandom_at env m0 16
    /\ length sys = 16%nat /\ length jitter = 20%nat
    /\ length packed = 8%nat.
Proof.
  unfold _collect_additional_entropy. intros H.
  apply bind_inv in H as (g & s0 & Eg & H).
  injection Eg as <- <-. cbv zeta in H.
  apply bind_inv in H as ([] & s1 & Es & H).
  injection Es as <-. fold (drained m) in H.
  apply bind_inv in H as (fresh & m0 & E0 & H).
  apply bind_inv in H as (sys & s2 & Esys & H).
  injection Esys as <- <-.
  apply bind_inv in H as (js & m2 & E2 & H).
  apply bind_inv in H as (ja & s3 & Eja & H).
  apply lift_inv in Eja as [Eja ->].
  apply np_array_uint64_inv in Eja. subst ja.
  apply bind_inv in H as (t0 & s4 & Et0 & H).
  apply bind_inv in H as (t1 & s5 & Et1 & H).
  apply bind_inv in H as (packed & s6 & Ep & H).
  apply lift_inv in Ep as [Ep ->].
  injection H as <- _.
  exists fresh, m0, (urandom_at env m0 16), (low_bytes js), packed.
  split; [exact E0|].
  split; [unfold urandom_at; now rewrite <- !app_assoc|].
  split; [reflexivity|].
  split; [unfold urandom_at; now rewrite length_map, length_seq|].
  split; [rewrite low_bytes_length; exact (collect_loop_length _ _ _ _ _ E2)|].
  exact (struct_pack_length _ _ _ _ Ep).
Qed.



(** X17. The "different portion" that stage 2 hashes, [entropy[-32:]],
    never holds a byte of the queued samples or of the fresh sample: it
    is the last 4 of the 16 bytes of system entropy, the 20 bytes of
    timing jitter and the 8 bytes of allocation timing. *)
Theorem stage2_portion_is_system_and_timing env m entropy m1 :
  _collect_additional_entropy env m = (Ok entropy, m1) ->
  exists fresh m0 jitter packed,
    _collect_microphone_entropy env (drained m) = (Ok fresh, m0)
    /\ entropy
       = concat (entropy_queue (self m)) ++ fresh
         ++ urandom_at env m0 16 ++ jitter ++ packed
    /\ length jitter = 20%nat /\ length packed = 8%nat
    /\ drop (length entropy - 32) entropy
       = drop 12 (urandom_at env m0 16) ++ jitter ++ packed
    /\ forall pool,
         stage2_hash pool entropy
         = SHA2.sha512 (stage1_hash pool entropy
                        ++ drop 12 (urandom_at env m0 16)
                        ++ jitter ++ packed).
Proof.
  intros H.
  destruct (collect_additional_entropy_inv env m entropy m1 H)
    as (fresh & m0 & sys & jitter & packed & E0 & He & -> & Hs & Hj & Hp).
  exists fresh, m0, jitter, packed.
  split; [exact E0|]. split; [exact He|].
  split; [exact Hj|]. split; [exact Hp|].
  assert (Hd : drop (length entropy - 32) entropy
               = drop 12 (urandom_at env m0 16) ++ jitter ++ packed).
  { rewrite He.
    rewrite <- (take_drop 12 (urandom_at env m0 16)) at 1 2.
    rewrite <- !(app_assoc (take 12 _)).
    rewrite !(app_assoc _ _ (drop 12 _ ++ _)).
    apply drop_app_length'.
    rewrite !length_app, length_take, !length_drop, Hs, Hj, Hp. lia. }
  split; [exact Hd|].
  intros pool. unfold stage2_hash, update, hashlib_new.
  rewrite Hd. reflexivity.
Qed.

Lemma stage2_portion_is_system_and_timing_witness :
  exists fresh m0 jitter packed,
    _collect_microphone_entropy fallback_host (drained fallback_generator)
    = (Ok fresh, m0)
    /\ length jitter = 20%nat /\ length packed = 8%nat
    /\ drop (76 - 32)
         (fresh ++ urandom_at fallback_host m0 16 ++ jitter ++ packed)
       = drop 12 (urandom_at fallback_host m0 16) ++ jitter ++ packed.
Proof.
  pose (r := _collect_additional_entropy fallback_host fallback_generator).
  pose (e := match fst r with Ok e => e | Raise _ => [] end).
  assert (E : _collect_additional_entropy fallback_host fallback_generator
              = (Ok e, snd r)) by (vm_compute; reflexivity).
  assert (Hl : length e = 76%nat) by (vm_compute; reflexivity).
  assert (Hq : entropy_queue (self fallback_generator) = [])
    by (vm_compute; reflexivity).
  destruct (stage2_portion_is_system_and_timing fallback_host
              fallback_generator e (snd r) E)
    as (fresh & m0 & jitter & packed & E0 & He & Hj & Hp & Hd & _).
  exists fresh, m0, jitter, packed.
  split; [exact E0|]. split; [exact Hj|]. split; [exact Hp|].
  rewrite Hl, He, Hq in Hd. exact Hd.
Defined.

(* ================================================================== *)
(** ** The size of the pool *)
(* ================================================================== *)

Lemma pool_grows_refl m : pool_grows m m.
Proof. exists []. now rewrite app_nil_r. Qed.

Lemma pool_grows_trans m1 m2 m3 :
  pool_grows m1 m2 -> pool_grows m2 m3 -> pool_grows m1 m3.
Proof.
  intros [s1 H1] [s2 H2]. exists (s1 ++ s2).
  now rewrite H2, H1, app_assoc.
Qed.

Lemma same_pool_grows {A} (c : M Machine A) :
  keeps (same_on entropy_pool) c -> keeps pool_grows c.
Proof.
  intros H m. exists []. rewrite (H m). now rewrite app_nil_r.
Qed.

Lemma pool_grows_extend seed :
  keeps pool_grows
    (on_self (fun g => set_entropy_pool (entropy_pool g ++ seed) g)).
Proof. intros m. exists seed. reflexivity. Qed.

(** Seeding only appends, also when it raises half-way. *)
Lemma collect_initial_entropy_grows env :
  keeps pool_grows (_collect_initial_entropy env).
Proof.
  unfold _collect_initial_entropy.
  frame_with pool_grows_refl pool_grows_trans
    ltac:(first [ apply pool_grows_extend
                | apply same_pool_grows; frame_leaf ]).
Qed.

Lemma pool_grows_stays_filled m m' : pool_grows m m' -> pool_stays_filled m m'.
Proof.
  intros [seed H] Hm. rewrite H, length_app. lia.
Qed.

Lemma pool_stays_filled_refl m : pool_stays_filled m m.
Proof. intros H. exact H. Qed.

Lemma pool_stays_filled_trans m1 m2 m3 :
  pool_stays_filled m1 m2 -> pool_stays_filled m2 m3 ->
  pool_stays_filled m1 m3.
Proof. unfold pool_stays_filled. auto. Qed.

Lemma same_pool_stays_filled {A} (c : M Machine A) :
  keeps (same_on entropy_pool) c -> keeps pool_stays_filled c.
Proof. intros H m Hm. rewrite (H m). exact Hm. Qed.

Lemma next_pool_filled env : keeps pool_stays_filled (next env).
Proof.
  intros m Hm. rewrite next_unfold.
  pose proof (collect_keeps_pool env m) as Hp.
  destruct (_collect_additional_entropy env m) as [[entropy|e] m1].
  - cbn [snd]. unfold conditioned.
    cbn [self entropy_pool set_entropy_pool].
    rewrite length_take, length_drop, xor_result_length. lia.
  - cbn [snd] in *. rewrite Hp. exact Hm.
Qed.

Lemma after_keeps_pool_filled env c m :
  pool_stays_filled m (after env c m).
Proof.
  pose proof (next_pool_filled env) as Hnext.
  assert (Hnorm : keeps pool_stays_filled (normalized_next env)).
  { unfold normalized_next.
    apply keeps_bind;
      [exact pool_stays_filled_trans | exact Hnext | intros x].
    apply keeps_lift. exact pool_stays_filled_refl. }
  destruct c; cbn [after].
  - apply Hnext.
  - apply (keeps_loop _ pool_stays_filled_refl pool_stays_filled_trans),
      Hnext.
  - apply Hnorm.
  - apply (keeps_loop _ pool_stays_filled_refl pool_stays_filled_trans),
      Hnorm.
  - apply same_pool_stays_filled. unfold get_entropy_estimate.
    frame_attr entropy_pool.
  - apply pool_grows_stays_filled, collect_initial_entropy_grows.
  - apply same_pool_stays_filled. unfold get_audio_status.
    frame_attr entropy_pool.
  - apply same_pool_stays_filled. unfold get_entropy_quality_metrics.
    frame_attr entropy_pool.
  - apply same_pool_stays_filled. unfold cleanup. frame_attr entropy_pool.
  - apply same_pool_stays_filled. unfold collector_iteration.
    frame_attr entropy_pool.
Qed.

Lemma pool_after_init env sample_rate chunk_size w m0 :
  __init__ env sample_rate chunk_size w = (Ok tt, m0) ->
  (44 <= length (entropy_pool (self m0)))%nat.
Proof.
  rewrite init_unfold. intros H.
  destruct (acquire_device_blank env sample_rate chunk_size w)
    as (m1 & E1 & Hnil & _).
  rewrite (bind_Ok _ _ _ _ _ E1) in H.
  destruct (collect_initial_entropy_inv env m1 m0 H)
    as (mic & sys & stamp & ident & Hp & Hs & Ht & Hi & _).
  rewrite Hp, Hnil, !length_app, Hs, Ht, Hi. cbn [length]. lia.
Qed.

(** X18. [get_entropy_estimate] only reads, and what it reads never falls
    below 24: a constructed generator holds at least 44 bytes, [next]
    leaves 24 when it returns and the pool as it was when it raises,
    [refresh_entropy] only appends, also when it raises half-way, and
    nothing else writes the pool. *)
Theorem entropy_estimate_at_least_24 env sample_rate chunk_size w m0 cs :
  __init__ env sample_rate chunk_size w = (Ok tt, m0) ->
  (exists n, get_entropy_estimate m0 = (Ok n, m0) /\ (44 <= n)%nat)
  /\ exists n,
       get_entropy_estimate (after_all env cs m0)
       = (Ok n, after_all env cs m0)
       /\ (24 <= n)%nat.
Proof.
  intros H. pose proof (pool_after_init _ _ _ _ _ H) as H44.
  split; [eexists; split; [reflexivity | exact H44]|].
  eexists. split; [reflexivity|].
  assert (H24 : (24 <= length (entropy_pool (self m0)))%nat) by lia.
  clear H H44. revert m0 H24. unfold after_all.
  induction cs as [|c cs IH]; intros m0 H24; cbn [fold_left]; [exact H24|].
  apply IH, after_keeps_pool_filled, H24.
Qed.

Lemma entropy_estimate_at_least_24_witness :
  exists n,
    get_entropy_estimate
      (after_all fallback_host
         [call_refresh_entropy; call_next; thread_turn; call_cleanup]
         fallback_generator)
    = (Ok n,
       after_all fallback_host
         [call_refresh_entropy; call_next; thread_turn; call_cleanup]
         fallback_generator)
    /\ (24 <= n)%nat.
Proof.
  assert (E : __init__ fallback_host 44100 1024 boot
              = (Ok tt, fallback_generator)) by (vm_compute; reflexivity).
  exact (proj2 (entropy_estimate_at_least_24 fallback_host 44100 1024 boot
                  fallback_generator
                  [call_refresh_entropy; call_next; thread_turn; call_cleanup]
                  E)).
Defined.

(* ================================================================== *)
(** ** What the seed ends with *)
(* ================================================================== *)

Lemma be_decode_app l b :
  SHA2.be_decode (l ++ [b]) = SHA2.be_decode l * 256 + b mod 256.
Proof. unfold SHA2.be_decode. now rewrite fold_left_app. Qed.

Lemma be_decode_encode n : forall x,
  SHA2.be_decode (SHA2.be_encode n x) = x mod 256 ^ Z.of_nat n.
Proof.
  induction n as [|n IH]; intros x.
  - cbn. now rewrite Z.mod_1_r.
  - cbn [SHA2.be_encode]. rewrite be_decode_app, IH.
    rewrite Nat2Z.inj_succ, Z.pow_succ_r by lia.
    assert (0 < 256 ^ Z.of_nat n) by (apply Z.pow_pos_nonneg; lia).
    rewrite Z.mod_mod by lia.
    rewrite Z.rem_mul_r by lia. lia.
Qed.

(** [struct.unpack] undoes [struct.pack], in either byte order. *)
Lemma decode_encode bo n x :
  0 <= x < 256 ^ Z.of_nat n -> decode bo (encode bo n x) = x.
Proof.
  intros H. destruct bo; cbn [decode encode]; rewrite ?rev_involutive;
    rewrite be_decode_encode; now apply Z.mod_small.
Qed.

Lemma collect_initial_entropy_tail env m m' :
  _collect_initial_entropy env m = (Ok tt, m') ->
  exists body t,
    entropy_pool (self m')
    = entropy_pool (self m) ++ body
      ++ encode (byteorder env) 8 t ++ encode (byteorder env) 4 (pid env)
    /\ (32 <= length body)%nat
    /\ ticks (world m') <> 0%nat
    /\ t = clock env (Nat.pred (ticks (world m')))
    /\ 0 <= t < 256 ^ 8 /\ 0 <= pid env < 256 ^ 4.
Proof.
  unfold _collect_initial_entropy. intros H.
  apply bind_inv in H as (b & s0 & Eu & H).
  pose proof (stream_unusable_state m) as Hs. rewrite Eu in Hs.
  cbn [snd] in Hs. subst s0.
  apply bind_inv in H as ([] & s1 & E1 & H).
  fold (seed_from_microphone env b) in E1.
  destruct (seed_from_microphone_inv env b m s1 E1) as (mic & Hmic & _).
  apply bind_inv in H as (sys & s2 & Esys & H).
  injection Esys as <- <-.
  apply bind_inv in H as ([] & s3 & E3 & H).
  injection E3 as <-.
  apply bind_inv in H as (t & s4 & Et & H).
  injection Et as <- <-.
  apply bind_inv in H as (packed & s5 & Ep & H).
  apply lift_inv in Ep as [Ep ->].
  apply struct_pack_inv in Ep as [-> Ht].
  apply bind_inv in H as ([] & s6 & E6 & H).
  injection E6 as <-.
  apply bind_inv in H as (p & s7 & Epid & H).
  injection Epid as <- <-.
  apply bind_inv in H as (ident & s8 & Ei & H).
  apply lift_inv in Ei as [Ei ->].
  apply struct_pack_inv in Ei as [-> Hp].
  injection H as <-.
  cbn [self world entropy_pool set_entropy_pool ticks].
  exists (mic ++ urandom_at env s1 32), (clock env (ticks (world s1))).
  rewrite Hmic.
  split; [unfold urandom_at; now rewrite <- !app_assoc|].
  split; [rewrite length_app, urandom_at_length; lia|].
  split; [discriminate|].
  split; [reflexivity|].
  split; [exact Ht | exact Hp].
Qed.

(** X19. The last 12 bytes of a seed are no secret: read back with the
    formats that wrote them, the last 4 bytes of the pool give the
    process identifier and the 8 bytes before them the clock reading
    taken last during seeding. *)
Theorem seed_ends_with_time_and_pid env m m' :
  _collect_initial_entropy env m = (Ok tt, m') ->
  let pool := entropy_pool (self m') in
  (length (entropy_pool (self m)) + 44 <= length pool)%nat
  /\ decode (byteorder env) (drop (length pool - 4) pool) = pid env
  /\ decode (byteorder env) (take 8 (drop (length pool - 12) pool))
     = clock env (Nat.pred (ticks (world m'))).
Proof.
  intros H pool.
  destruct (collect_initial_entropy_tail env m m' H)
    as (body & t & Hp & Hb & _ & Ht & Ht8 & Hpid).
  subst pool. rewrite Hp, <- Ht.
  set (stamp := encode (byteorder env) 8 t).
  set (ident := encode (byteorder env) 4 (pid env)).
  assert (Hls : length stamp = 8%nat) by apply encode_length.
  assert (Hli : length ident = 4%nat) by apply encode_length.
  split; [rewrite !length_app; lia|].
  split.
  - rewrite !(app_assoc _ _ ident).
    rewrite drop_app_length' by (rewrite !length_app; lia).
    apply decode_encode, Hpid.
  - rewrite (app_assoc _ body).
    rewrite drop_app_length' by (rewrite !length_app; lia).
    rewrite take_app_length' by (symmetry; exact Hls).
    apply decode_encode, Ht8.
Qed.

Lemma seed_ends_with_time_and_pid_witness :
  decode little
    (drop (length (entropy_pool (self fallback_generator)) - 4)
       (entropy_pool (self fallback_generator)))
  = 4242.
Proof.
  assert (E : _collect_initial_entropy fallback_host
                {| self := blank 44100 1024; world := boot |}
              = (Ok tt, fallback_generator)) by (vm_compute; reflexivity).
  exact (proj1 (proj2 (seed_ends_with_time_and_pid fallback_host _
                         fallback_generator E))).
Defined.

(* ================================================================== *)
(** ** A sample extracted from the microphone *)
(* ================================================================== *)


Lemma land_low_bits (k x : Z) :
  0 <= k -> 0 <= Z.land x (Z.ones k) < 2 ^ k.
Proof.
  intros Hk. rewrite Z.land_ones by exact Hk.
  apply Z.mod_pos_bound, Z.pow_pos_nonneg; lia.
Qed.

Lemma lsb_bits a : Forall is_bit (map (fun x => Z.land x 0x01) a).
Proof.
  apply Forall_forall. intros b Hb. apply list_elem_of_In in Hb.
  apply in_map_iff in Hb as (x & <- & _).
  pose proof (land_low_bits 1 x ltac:(lia)) as H.
  change (Z.ones 1) with 1 in H. change (2 ^ 1) with 2 in H.
  unfold is_bit. lia.
Qed.








